(** * Knight's Isolation players: minimax with alpha-beta pruning and
      Monte Carlo tree search (UCT)

    A shallow embedding of [my_custom_player.py] and the properties of its
    two decision engines.

    - Part I    : Python values and built-ins ([float("inf")], [min], [max],
                  [max(..., key=...)], [random.choice]) and the outcomes of
                  a call.
    - Part II   : the game-state interface the players consume.
    - Part III  : the objects a player works on: nodes, the store, the
                  random generator, the clock and the decision queue.
    - Part IV   : [MinimaxAlphaBetaPlayer].
    - Part V    : [Node] and [MonteCarloUCTPlayer].
    - Part VI   : a small concrete game on which the definitions are run.
    - Part VII  : the vocabulary of the specification.
    - Part VIII : the properties. *)

From Stdlib Require Import ZArith Lia List Bool Orders OrdersTac Reals Lra.
From stdpp Require Import base tactics option list numbers.

Set Default Proof Using "Type".
Local Open Scope Z_scope.

(* ===================================================================== *)
(** * Part I. Python values and built-ins *)
(* ===================================================================== *)

(** ** Numbers compared by the minimax search

    [score] returns a Python [int]; [utility] may return an [int] or one of
    [float("inf")], [float("-inf")]; the running bounds start at the two
    infinities.  Python compares these numerically, so the values form the
    integers extended by a least and a greatest element. *)

Inductive EZ : Type :=
| NegInf : EZ
| Fin (z : Z) : EZ
| PosInf : EZ.

Module EZ.

Definition compare (a b : EZ) : comparison :=
  match a, b with
  | NegInf, NegInf => Eq
  | NegInf, _ => Lt
  | Fin _, NegInf => Gt
  | Fin x, Fin y => Z.compare x y
  | Fin _, PosInf => Lt
  | PosInf, PosInf => Eq
  | PosInf, _ => Gt
  end.

(** [a < b] and [a <= b] as Python evaluates them. *)
Definition ltb (a b : EZ) : bool :=
  match compare a b with Lt => true | _ => false end.

Definition leb (a b : EZ) : bool :=
  match compare a b with Gt => false | _ => true end.

(** [a >= b] *)
Definition geb (a b : EZ) : bool := leb b a.

Definition eq : EZ -> EZ -> Prop := @Logic.eq EZ.

Definition lt (a b : EZ) : Prop := ltb a b = true.

Definition le (a b : EZ) : Prop := leb a b = true.

(** Python's two-argument [min(a, b)] and [max(a, b)]: the first argument
    is kept unless the second one is strictly better. *)
Definition min (a b : EZ) : EZ := if ltb b a then b else a.

Definition max (a b : EZ) : EZ := if ltb a b then b else a.

End EZ.

Declare Scope EZ_scope.
Delimit Scope EZ_scope with EZ.
Bind Scope EZ_scope with EZ.
Infix "<" := EZ.lt : EZ_scope.
Infix "<=" := EZ.le : EZ_scope.
Infix "<?" := EZ.ltb : EZ_scope.
Infix "<=?" := EZ.leb : EZ_scope.
Infix ">=?" := EZ.geb (at level 70) : EZ_scope.

(** ** [max(iterable, key=...)]

    CPython keeps the first item and replaces it only by an item whose key
    is strictly greater; on an empty iterable it raises [ValueError], which
    is the [None] below. *)

Section PyMax.
Context {A K : Type} (ltb : K -> K -> bool) (key : A -> K).

Fixpoint max_from (best : A) (l : list A) : A :=
  match l with
  | [] => best
  | x :: l' => max_from (if ltb (key best) (key x) then x else best) l'
  end.

Definition py_max (l : list A) : option A :=
  match l with
  | [] => None
  | x :: l' => Some (max_from x l')
  end.

End PyMax.

(** [list.index(x)]: position of the first item equal to [x]. *)
Fixpoint index_of {A} `{EqDecision A} (x : A) (l : list A) : option nat :=
  match l with
  | [] => None
  | y :: l' => if decide (y = x) then Some 0%nat else S <$> index_of x l'
  end.

(** [range(lo, hi)] *)
Definition range (lo hi : Z) : list Z := seqZ lo (hi - lo).

(** ** The random source

    The generator is an oracle: the sequence of raw draws it is going to
    produce.  [random.choice(seq)] indexes [seq] by one draw reduced below
    [len(seq)], and raises [IndexError] on an empty sequence.  Every
    sequence of choices the real generator can make is one oracle; the
    distribution of the draws is not part of the model. *)

Definition Rng := list nat.

Definition randbelow (n : nat) (g : Rng) : nat * Rng :=
  match g with
  | [] => (0%nat, [])
  | r :: g' => (r mod n, g')%nat
  end.

(** ** Outcomes of a call

    A call returns a value and the new state of the world, raises a Python
    exception, or is cut off because the model's bound on the number of
    iterations of its [while] loops ran out. *)

Inductive Exn : Type :=
| IndexError          (* random.choice of an empty sequence, list[-1] *)
| ValueError          (* max() of an empty sequence, list.index *)
| UnboundLocalError   (* a local variable read before assignment *)
| AttributeError      (* attribute of None *)
| DanglingReference.  (* a location that holds no node: never produced by
                         Python, whose references always point to an object *)

Inductive Result (W A : Type) : Type :=
| Ok (a : A) (w : W)
| Raise (e : Exn)
| OutOfFuel.
Arguments Ok {W A} a w.
Arguments Raise {W A} e.
Arguments OutOfFuel {W A}.

Definition M (W A : Type) : Type := W -> Result W A.

#[global] Instance M_ret {W} : MRet (M W) := fun A a w => Ok a w.

#[global] Instance M_bind {W} : MBind (M W) := fun A B f m w =>
  match m w with
  | Ok a w' => f a w'
  | Raise e => Raise e
  | OutOfFuel => OutOfFuel
  end.

Definition raise {W A} (e : Exn) : M W A := fun _ => Raise e.

Definition out_of_fuel {W A} : M W A := fun _ => OutOfFuel.

Definition modify {W} (f : W -> W) : M W unit := fun w => Ok tt (f w).

(** [for x in l: body(x)] *)
Fixpoint for_ {W A} (l : list A) (body : A -> M W unit) : M W unit :=
  match l with
  | [] => mret tt
  | x :: l' => body x ;; for_ l' body
  end.

(* ===================================================================== *)
(** * Part II. The game-state interface *)
(* ===================================================================== *)

(** The rules engine is not part of the players: they see a state only
    through these attributes and methods.  Player identifiers are the
    Python integers 0 and 1. *)

Class Isolation : Type := {
  State : Type;
  Action : Type;
  Location : Type;
  Action_eq_dec :: EqDecision Action;
  ply_count : State -> Z;
  actions : State -> list Action;
  result : State -> Action -> State;
  terminal_test : State -> bool;
  utility : State -> Z -> EZ;
  locs : State -> Z -> Location;
  liberties : State -> Location -> list Location;
  player : State -> Z;
  _has_liberties : State -> Z -> bool
}.

(* ===================================================================== *)
(** * Part III. The objects a player works on *)
(* ===================================================================== *)

(** A reference to a [Node] object: its location in the store. *)
Abbreviation loc := nat (only parsing).

Section Runtime.
Context `{G : Isolation}.

(** A [Node] object lives in a store and is referred to by its location;
    [children] and [parent] hold locations, so that an update of a node is
    seen through every reference to it.  Locations are handed out in
    allocation order.

    [visits] starts at 1 and is only ever incremented, hence a [positive].
    [value] is a Python float that starts at [0.0] and only ever receives
    the integer rewards of the playouts, which floats add exactly; it is
    kept as the integer it denotes. *)

Record Node : Type := mkNode {
  visits : positive;
  value : Z;
  state : State;
  children : list loc;
  child_actions : list Action;
  parent : option loc
}.

(** The world a call runs in: the random generator, the wall clock (the
    number of deadline checks [time.time() < timer_end] that are still going
    to succeed), the store of [Node] objects, and the decision queue of the
    player ([self.queue]), oldest item first. *)

Record World : Type := mkWorld {
  rng : Rng;
  clock : nat;
  heap : list Node;
  queue : list Action
}.

Definition set_rng (g : Rng) (w : World) : World :=
  mkWorld g (clock w) (heap w) (queue w).

Definition set_clock (c : nat) (w : World) : World :=
  mkWorld (rng w) c (heap w) (queue w).

Definition set_heap (h : list Node) (w : World) : World :=
  mkWorld (rng w) (clock w) h (queue w).

Definition set_queue (q : list Action) (w : World) : World :=
  mkWorld (rng w) (clock w) (heap w) q.

(** [random.choice(seq)] *)
Definition random_choice {A} (l : list A) : M World A := fun w =>
  match l with
  | [] => Raise IndexError
  | _ =>
      let (i, g) := randbelow (length l) (rng w) in
      match l !! i with
      | Some x => Ok x (set_rng g w)
      | None => Raise IndexError
      end
  end.

(** [self.queue.put(x)] *)
Definition queue_put (x : Action) : M World unit :=
  modify (fun w => set_queue (queue w ++ [x]) w).

(** [time.time() < timer_end] *)
Definition before_deadline : M World bool := fun w =>
  match clock w with
  | O => Ok false w
  | S c => Ok true (set_clock c w)
  end.

(** Reading and writing the object at a location. *)
Definition get_node (l : loc) : M World Node := fun w =>
  match heap w !! l with
  | Some n => Ok n w
  | None => Raise DanglingReference
  end.

Definition set_node (l : loc) (n : Node) : M World unit :=
  modify (fun w => set_heap (<[l := n]> (heap w)) w).

Definition alloc (n : Node) : M World loc := fun w =>
  Ok (length (heap w)) (set_heap (heap w ++ [n]) w).

End Runtime.

(* ===================================================================== *)
(** * Part IV. [MinimaxAlphaBetaPlayer] *)
(* ===================================================================== *)

Module MinimaxAlphaBetaPlayer.
Section Player.
Context `{G : Isolation}.

(** [self.player_id] *)
Variable player_id : Z.

Definition score (state : State) : Z :=
  let own_loc := locs state player_id in
  let opp_loc := locs state (1 - player_id) in
  let own_liberties := liberties state own_loc in
  let opp_liberties := liberties state opp_loc in
  (Z.of_nat (length own_liberties) - Z.of_nat (length opp_liberties))%Z.

(** The [for action in state.actions()] loop of [min_value], entered with
    the current [value] and [beta]; [child action alpha beta] is the call
    [max_value(state.result(action), alpha, beta, depth - 1)]. *)
Fixpoint min_loop (child : Action -> EZ -> EZ -> EZ) (alpha : EZ)
    (acts : list Action) (value beta : EZ) : EZ :=
  match acts with
  | [] => value
  | action :: rest =>
      let value := EZ.min value (child action alpha beta) in
      if (value <=? alpha)%EZ then value
      else min_loop child alpha rest value (EZ.min beta value)
  end.

(** The loop of [max_value], entered with the current [value] and
    [alpha]. *)
Fixpoint max_loop (child : Action -> EZ -> EZ -> EZ) (beta : EZ)
    (acts : list Action) (value alpha : EZ) : EZ :=
  match acts with
  | [] => value
  | action :: rest =>
      let value := EZ.max value (child action alpha beta) in
      if (value >=? beta)%EZ then value
      else max_loop child beta rest value (EZ.max alpha value)
  end.

(** [min_value] and [max_value] by recursion on the number of plies left:
    [n] is [depth] when [depth > 0] and [0] when [depth <= 0]. *)
Fixpoint min_value_rec (n : nat) (state : State) (alpha beta : EZ) : EZ :=
  if terminal_test state then utility state player_id
  else
    match n with
    | O => Fin (score state)
    | S n' =>
        min_loop
          (fun action alpha beta =>
             max_value_rec n' (result state action) alpha beta)
          alpha (actions state) PosInf beta
    end
with max_value_rec (n : nat) (state : State) (alpha beta : EZ) : EZ :=
  if terminal_test state then utility state player_id
  else
    match n with
    | O => Fin (score state)
    | S n' =>
        max_loop
          (fun action alpha beta =>
             min_value_rec n' (result state action) alpha beta)
          beta (actions state) NegInf alpha
    end.

Definition min_value (state : State) (alpha beta : EZ) (depth : Z) : EZ :=
  min_value_rec (Z.to_nat depth) state alpha beta.

Definition max_value (state : State) (alpha beta : EZ) (depth : Z) : EZ :=
  max_value_rec (Z.to_nat depth) state alpha beta.

(** [None] is the [ValueError] of [max] on an empty action list. *)
Definition minimax_alpha_beta (state : State) (depth : Z) : option Action :=
  py_max EZ.ltb
    (fun x => min_value (result state x) NegInf PosInf (depth - 1))
    (actions state).

Definition depth_limit : Z := 5.

(** [for depth in depths: self.queue.put(self.minimax_alpha_beta(state, depth))] *)
Definition iterative_deepening (state : State) (depths : list Z)
    : M World unit :=
  for_ depths (fun depth =>
    match minimax_alpha_beta state depth with
    | Some a => queue_put a
    | None => raise ValueError
    end).

Definition get_action (state : State) : M World unit :=
  if (ply_count state <? 2)%Z then
    a ← random_choice (actions state); queue_put a
  else
    iterative_deepening state (range 1 (depth_limit + 1)).

(** ** Depth-limited minimax without pruning

    The reference the pruned search is compared with: the same tree, the
    same evaluation at terminal states and at the depth limit, the same
    [min]/[max] over all children, no bounds and no early return. *)

Fixpoint plain_min_rec (n : nat) (state : State) : EZ :=
  if terminal_test state then utility state player_id
  else
    match n with
    | O => Fin (score state)
    | S n' =>
        fold_left
          (fun value action => EZ.min value (plain_max_rec n' (result state action)))
          (actions state) PosInf
    end
with plain_max_rec (n : nat) (state : State) : EZ :=
  if terminal_test state then utility state player_id
  else
    match n with
    | O => Fin (score state)
    | S n' =>
        fold_left
          (fun value action => EZ.max value (plain_min_rec n' (result state action)))
          (actions state) NegInf
    end.

Definition plain_min_value (state : State) (depth : Z) : EZ :=
  plain_min_rec (Z.to_nat depth) state.

Definition plain_max_value (state : State) (depth : Z) : EZ :=
  plain_max_rec (Z.to_nat depth) state.

Definition plain_minimax (state : State) (depth : Z) : option Action :=
  py_max EZ.ltb
    (fun x => plain_min_value (result state x) (depth - 1))
    (actions state).

End Player.
End MinimaxAlphaBetaPlayer.

(* ===================================================================== *)
(** * Part V. [Node] and [MonteCarloUCTPlayer] *)
(* ===================================================================== *)

(** ** class [Node] *)

Module Node.
Section Methods.
Context `{G : Isolation}.

(** [Node(state, parent)] *)
Definition init (st : State) (parent : option loc) : M World loc :=
  alloc (mkNode 1 0 st [] [] parent).

Definition add_child (self : loc) (child_state : State) (action : Action)
    : M World unit :=
  child ← init child_state (Some self);
  n ← get_node self;
  set_node self
    (mkNode (visits n) (value n) (state n)
       (children n ++ [child]) (child_actions n ++ [action]) (parent n)).

Definition update (self : loc) (v : Z) : M World unit :=
  n ← get_node self;
  set_node self
    (mkNode (visits n + 1)%positive (value n + v)%Z (state n)
       (children n) (child_actions n) (parent n)).

Definition fully_explored (self : loc) : M World bool :=
  n ← get_node self;
  mret (length (child_actions n) =? length (actions (state n)))%nat.

End Methods.
End Node.

(** ** class [MonteCarloUCTPlayer]

    The upper-confidence score is computed on Python floats by a division,
    a logarithm and a square root; here it is the real number these
    operations denote. *)

Definition Rltb (x y : R) : bool := if Rlt_dec x y then true else false.

Module MonteCarloUCTPlayer.
Section Player.
Context `{G : Isolation}.

(** The [for]/[break] search of [expand]: the first action that is
    [not in child_action_attempts]. *)
Fixpoint first_untried (possible_actions child_action_attempts : list Action)
    : option Action :=
  match possible_actions with
  | [] => None
  | action :: rest =>
      if decide (action ∈ child_action_attempts)
      then first_untried rest child_action_attempts
      else Some action
  end.

(** When the loop ends without [break], [new_state] was never assigned. *)
Definition expand (node : loc) : M World loc :=
  n ← get_node node;
  let possible_actions := actions (state n) in
  let child_action_attempts := child_actions n in
  match first_untried possible_actions child_action_attempts with
  | None => raise UnboundLocalError
  | Some action =>
      let new_state := result (state n) action in
      Node.add_child node new_state action ;;
      n' ← get_node node;
      match list.last (children n') with
      | Some c => mret c
      | None => raise IndexError
      end
  end.

Definition exploit (node : loc) : M World R :=
  n ← get_node node;
  mret (IZR (value n) / IPR (visits n))%R.

Definition explore (node : loc) : M World R :=
  n ← get_node node;
  match parent n with
  | None => raise AttributeError
  | Some p =>
      pn ← get_node p;
      mret (sqrt (2 * ln (IPR (visits pn)) / IPR (visits n)))%R
  end.

(** The key [lambda child: ...] of [best_child]. *)
Definition uct_key (factor : R) (child : loc) : M World R :=
  e ← exploit child;
  x ← explore child;
  mret (e + factor * x)%R.

(** The keys of the children, in child order. *)
Fixpoint keyed (factor : R) (l : list loc) : M World (list (loc * R)) :=
  match l with
  | [] => mret []
  | c :: l' =>
      k ← uct_key factor c;
      ks ← keyed factor l';
      mret ((c, k) :: ks)
  end.

Definition best_child (node : loc) (factor : R) : M World loc :=
  n ← get_node node;
  ks ← keyed factor (children n);
  match py_max Rltb snd ks with
  | Some (c, _) => mret c
  | None => raise ValueError
  end.

Fixpoint tree_policy (fuel : nat) (node : loc) : M World loc :=
  match fuel with
  | O => out_of_fuel
  | S fuel' =>
      n ← get_node node;
      if terminal_test (state n) then mret node
      else
        full ← Node.fully_explored node;
        if negb full then expand node
        else
          node' ← best_child node 1%R;
          tree_policy fuel' node'
  end.

(** The [while not state.terminal_test()] loop of [rollout_policy]. *)
Fixpoint playout (fuel : nat) (st : State) : M World State :=
  match fuel with
  | O => out_of_fuel
  | S fuel' =>
      if terminal_test st then mret st
      else
        action ← random_choice (actions st);
        playout fuel' (result st action)
  end.

Definition rollout_policy (fuel : nat) (node : loc) (player_arg : Z)
    : M World Z :=
  n ← get_node node;
  st ← playout fuel (state n);
  if _has_liberties st (player (state n)) then mret (-1)%Z
  else mret 1%Z.

(** [while node:] runs until [node] is [None]. *)
Fixpoint backprop (fuel : nat) (node : option loc) (v : Z) : M World unit :=
  match fuel with
  | O => out_of_fuel
  | S fuel' =>
      match node with
      | None => mret tt
      | Some l =>
          Node.update l v ;;
          n ← get_node l;
          backprop fuel' (parent n) (- v)%Z
      end
  end.

(** The [while time.time() < timer_end] loop of [monte_carlo_uct]. *)
Fixpoint search (fuel : nat) (root : loc) (st : State) : M World unit :=
  match fuel with
  | O => out_of_fuel
  | S fuel' =>
      continue ← before_deadline;
      if continue : bool then
        leaf ← tree_policy fuel' root;
        v ← rollout_policy fuel' leaf (player st);
        backprop fuel' (Some leaf) v ;;
        search fuel' root st
      else mret tt
  end.

(** The last two lines of [monte_carlo_uct]: the action recorded at the
    position of the best child. *)
Definition final_move (root : loc) : M World Action :=
  best ← best_child root 0%R;
  rn ← get_node root;
  match index_of best (children rn) with
  | None => raise ValueError
  | Some i =>
      match child_actions rn !! i with
      | Some a => mret a
      | None => raise IndexError
      end
  end.

(** The deadline [timer_end] is [time.time() + delta], with [delta] taken
    from the global [TIME_LIMIT] when there is one; what the search sees of
    it is the outcome of each deadline check, which the clock of the world
    provides. *)
Definition monte_carlo_uct (fuel : nat) (st : State) : M World Action :=
  root ← Node.init st None;
  rn ← get_node root;
  if terminal_test (state rn) then random_choice (actions st)
  else
    search fuel root st ;;
    final_move root.

Definition get_action (fuel : nat) (st : State) : M World unit :=
  if (ply_count st <? 2)%Z then
    a ← random_choice (actions st); queue_put a
  else
    a ← monte_carlo_uct fuel st; queue_put a.

End Player.
End MonteCarloUCTPlayer.

(* ===================================================================== *)
(** * Part VI. A small concrete game *)
(* ===================================================================== *)

(** A take-away game: each player owns a pile of tokens and a move takes
    one or two tokens from the mover's own pile.  A player whose pile is
    empty has no move left, and the game is over as soon as one of the two
    piles is empty.  It implements the interface of Part II and is small
    enough to run both players on it. *)

Module TakeAway.

Record Piles : Type := mkPiles { pile0 : nat; pile1 : nat; ply : nat }.

(** Player 0 moves at even plies, player 1 at odd ones. *)
Definition pile_player (s : Piles) : Z :=
  if Nat.even (ply s) then 0%Z else 1%Z.

Definition pile_of (s : Piles) (p : Z) : nat :=
  if (p =? 0)%Z then pile0 s else pile1 s.

Definition pile_actions (s : Piles) : list nat :=
  match pile_of s (pile_player s) with
  | O => []
  | S O => [1%nat]
  | _ => [1%nat; 2%nat]
  end.

Definition pile_result (s : Piles) (a : nat) : Piles :=
  if (pile_player s =? 0)%Z
  then mkPiles (pile0 s - a) (pile1 s) (S (ply s))
  else mkPiles (pile0 s) (pile1 s - a) (S (ply s)).

Definition pile_has_liberties (s : Piles) (p : Z) : bool :=
  negb (pile_of s p =? 0)%nat.

Definition pile_terminal (s : Piles) : bool :=
  negb (pile_has_liberties s 0 && pile_has_liberties s 1).

Definition pile_utility (s : Piles) (p : Z) : EZ :=
  if pile_terminal s then
    if pile_has_liberties s p then PosInf else NegInf
  else Fin 0.

(** A player is located at its own identifier, and has one liberty for each
    token of its pile. *)
Definition pile_liberties (s : Piles) (l : Z) : list Z :=
  replicate (pile_of s l) l.

#[global] Instance game : Isolation := {|
  State := Piles;
  Action := nat;
  Location := Z;
  ply_count s := Z.of_nat (ply s);
  actions := pile_actions;
  result := pile_result;
  terminal_test := pile_terminal;
  utility := pile_utility;
  locs _ p := p;
  liberties := pile_liberties;
  player := pile_player;
  _has_liberties := pile_has_liberties
|}.

(** The root node of a search from [s]. *)
Definition root_node (s : Piles) : Node := mkNode 1 0 s [] [] None.

(** A tree of four nodes: the root, its two children, and a grandchild
    below the first child. *)
Definition first_child : Node :=
  mkNode 2 (-1) (mkPiles 2 3 3) [2%nat] [1%nat] (Some 0%nat).

Definition small_tree : list Node :=
  [ mkNode 3 1 (mkPiles 3 3 2) [1; 3]%nat [1; 2]%nat None;
    first_child;
    mkNode 1 0 (mkPiles 2 2 4) [] [] (Some 1%nat);
    mkNode 1 0 (mkPiles 1 3 3) [] [] (Some 0%nat) ].



End TakeAway.

(* ===================================================================== *)
(** * Part VII. Specification vocabulary *)
(* ===================================================================== *)

(** [x] is the item at position [i] of [l], no item has a greater key, and
    every item before position [i] has a smaller key. *)
Definition first_argmax {A K} (ltb : K -> K -> bool) (key : A -> K)
    (l : list A) (i : nat) (x : A) : Prop :=
  l !! i = Some x /\
  (forall j y, l !! j = Some y -> ltb (key x) (key y) = false) /\
  (forall j y, (j < i)%nat -> l !! j = Some y -> ltb (key y) (key x) = true).

Section Vocabulary.
Context `{G : Isolation}.

(** A playout: from [s] with generator [g], the moves drawn by
    [random.choice] among the legal actions lead to the terminal state [s']
    and leave the generator [g']. *)
Inductive played : State -> Rng -> State -> Rng -> Prop :=
| played_end s g :
    terminal_test s = true -> played s g s g
| played_move s g a s' g' :
    terminal_test s = false ->
    actions s !! (randbelow (length (actions s)) g).1 = Some a ->
    played (result s a) (randbelow (length (actions s)) g).2 s' g' ->
    played s g s' g'.

(** The node [d] parent links above [l]. *)
Fixpoint ancestor (h : list Node) (l : loc) (d : nat) : option loc :=
  match d with
  | O => Some l
  | S d' =>
      match h !! l with
      | Some n =>
          match parent n with
          | Some p => ancestor h p d'
          | None => None
          end
      | None => None
      end
  end.

(** Every parent was allocated before its child. *)
Definition parents_first (h : list Node) : Prop :=
  forall l n p, h !! l = Some n -> parent n = Some p -> (p < l)%nat.

(** Every child of [n], the node at [l], is in the store and has [l] as
    its parent. *)
Definition children_linked (h : list Node) (l : loc) (n : Node) : Prop :=
  forall c, c ∈ children n ->
    exists cn, h !! c = Some cn /\ parent cn = Some l.

(** [exploit(child)], and [exploit(child) + factor * explore(child)] for a
    child of [n], read off the store. *)
Definition average (h : list Node) (c : loc) : R :=
  match h !! c with
  | Some cn => (IZR (value cn) / IPR (visits cn))%R
  | None => 0%R
  end.

Definition ucb (h : list Node) (n : Node) (factor : R) (c : loc) : R :=
  match h !! c with
  | Some cn =>
      (IZR (value cn) / IPR (visits cn)
       + factor * sqrt (2 * ln (IPR (visits n)) / IPR (visits cn)))%R
  | None => 0%R
  end.

(** The node [n] at [l] is consistent: its children are linked to it, it
    records one action per child, and the recorded actions are distinct
    legal actions of its state. *)
Definition node_ok (h : list Node) (l : loc) (n : Node) : Prop :=
  children_linked h l n /\
  length (child_actions n) = length (children n) /\
  NoDup (child_actions n) /\
  (forall a, (a ∈ child_actions n) -> (a ∈ actions (state n))).

(** The store holds consistent trees. *)
Definition tree_ok (h : list Node) : Prop :=
  parents_first h /\ forall l n, h !! l = Some n -> node_ok h l n.

(** From [h] to [h'] nodes are only added or updated in place: a node
    keeps its state and its parent, and the children it has. *)
Definition grows (h h' : list Node) : Prop :=
  (length h <= length h')%nat /\
  forall l n, h !! l = Some n ->
    exists n', h' !! l = Some n' /\ state n' = state n /\
               parent n' = parent n /\
               (children n <> [] -> children n' <> []).

(** From [h] to [h'] nothing but visits and values has changed. *)
Definition same_links (h h' : list Node) : Prop :=
  length h' = length h /\
  forall l n, h !! l = Some n ->
    exists n', h' !! l = Some n' /\ state n' = state n /\
               children n' = children n /\
               child_actions n' = child_actions n /\
               parent n' = parent n.

(** No state of the store has a rank above [bound]. *)
Definition ranked (rank : State -> nat) (bound : nat) (h : list Node) : Prop :=
  forall l n, h !! l = Some n -> (rank (state n) <= bound)%nat.

(** [n] with one more visit and [v] added to its value. *)
Definition visited (v : Z) (n : Node) : Node :=
  mkNode (visits n + 1)%positive (value n + v)%Z (state n)
    (children n) (child_actions n) (parent n).

End Vocabulary.

Section VocabularyMore.
Context `{G : Isolation}.

(** The store after [expand] has created a child of [pn], the node at [p],
    for the action [a]. *)
Definition expanded (h : list Node) (p : loc) (pn : Node) (a : Action)
    : list Node :=
  <[p := mkNode (visits pn) (value pn) (state pn)
           (children pn ++ [length h]) (child_actions pn ++ [a]) (parent pn)]>
    (h ++ [mkNode 1 0 (result (state pn) a) [] [] (Some p)]).

(** The value of a node is the sum of one reward of -1 or +1 per visit
    after its creation. *)
Definition values_bounded (h : list Node) : Prop :=
  forall l n, h !! l = Some n ->
    (Z.abs (value n) <= Z.pos (visits n) - 1)%Z.

(** The children of every node were created in the order of the legal
    actions of its state. *)
Definition in_action_order (h : list Node) : Prop :=
  forall l n, h !! l = Some n ->
    child_actions n `prefix_of` actions (state n).

End VocabularyMore.

Section VocabularyContract.
Context `{G : Isolation}.

(** What the search relies on from the game state: an action list without
    repetition, a legal action in every non-terminal state, and a rank
    that every move lowers, so that no play goes on for ever. *)
Definition game_contract (rank : State -> nat) : Prop :=
  (forall s, NoDup (actions s)) /\
  (forall s, terminal_test s = false -> actions s <> []) /\
  (forall s a, terminal_test s = false -> a ∈ actions s ->
     (rank (result s a) < rank s)%nat).

(** A store as the search leaves it. *)
Definition store_ok (h : list Node) : Prop :=
  tree_ok h /\ values_bounded h /\ in_action_order h.

End VocabularyContract.

(** What a search with window [(alpha, beta)] that returned [r] says about
    the exact value [v]: a result at or below [alpha] is an upper bound, a
    result at or above [beta] is a lower bound, and a result strictly
    inside the window is exact. *)
Definition within_window (v r alpha beta : EZ) : Prop :=
  (r <= alpha -> v <= r)%EZ /\
  (beta <= r -> r <= v)%EZ /\
  (alpha < r -> r < beta -> v = r)%EZ.

(* ===================================================================== *)
(** * Part VIII. Properties *)
(* ===================================================================== *)

(** ** The order on the extended integers *)

Module EZFacts.

Lemma compare_refl a : EZ.compare a a = Eq.
Proof. destruct a; simpl; auto using Z.compare_refl. Qed.

Lemma compare_eq a b : EZ.compare a b = Eq -> a = b.
Proof.
  destruct a, b; simpl; try discriminate; auto.
  intros H. apply Z.compare_eq in H. now subst.
Qed.

Lemma compare_antisym a b : EZ.compare b a = CompOpp (EZ.compare a b).
Proof. destruct a, b; simpl; auto using Z.compare_antisym. Qed.

Lemma lt_trans a b c : EZ.lt a b -> EZ.lt b c -> EZ.lt a c.
Proof.
  unfold EZ.lt, EZ.ltb.
  destruct a, b, c; simpl; try discriminate; auto.
  destruct (Z.compare_spec z z0), (Z.compare_spec z0 z1),
    (Z.compare_spec z z1); try discriminate; auto; lia.
Qed.

Lemma lt_irrefl a : ~ EZ.lt a a.
Proof. unfold EZ.lt, EZ.ltb. now rewrite compare_refl. Qed.

Lemma le_lteq a b : EZ.le a b <-> EZ.lt a b \/ a = b.
Proof.
  unfold EZ.le, EZ.lt, EZ.leb, EZ.ltb.
  destruct (EZ.compare a b) eqn:E.
  - apply compare_eq in E. tauto.
  - tauto.
  - split; [discriminate|]. intros [H| ->]; [discriminate|].
    now rewrite compare_refl in E.
Qed.

Lemma lt_total a b : EZ.lt a b \/ a = b \/ EZ.lt b a.
Proof.
  unfold EZ.lt, EZ.ltb. rewrite (compare_antisym a b).
  destruct (EZ.compare a b) eqn:E; simpl; auto.
  apply compare_eq in E. auto.
Qed.

End EZFacts.

Module EZOrder <: TotalOrder.
Definition t := EZ.
Definition eq := EZ.eq.
Definition lt := EZ.lt.
Definition le := EZ.le.
Definition eq_equiv : Equivalence eq := eq_equivalence.
Definition lt_strorder : StrictOrder lt :=
  Build_StrictOrder _ EZFacts.lt_irrefl EZFacts.lt_trans.
Definition lt_compat : Proper (eq ==> eq ==> iff) lt.
Proof. intros a b -> c d ->. reflexivity. Defined.
Definition le_lteq := EZFacts.le_lteq.
Definition lt_total := EZFacts.lt_total.
End EZOrder.

Module EZTac := MakeOrderTac EZOrder EZOrder.

(** Closes a goal that follows from the hypotheses by the laws of a total
    order alone. *)
Ltac ez_order :=
  intros; change (@Logic.eq EZ) with EZ.eq in *; EZTac.order.

Local Open Scope EZ_scope.

Lemma ltb_lt a b : (a <? b) = true <-> a < b.
Proof. reflexivity. Qed.

Lemma ltb_ge a b : (a <? b) = false <-> b <= a.
Proof.
  unfold EZ.le, EZ.leb, EZ.ltb. rewrite (EZFacts.compare_antisym a b).
  destruct (EZ.compare a b); simpl; intuition discriminate.
Qed.

Lemma leb_le a b : (a <=? b) = true <-> a <= b.
Proof. reflexivity. Qed.

Lemma leb_gt a b : (a <=? b) = false <-> b < a.
Proof.
  unfold EZ.lt, EZ.leb, EZ.ltb. rewrite (EZFacts.compare_antisym a b).
  destruct (EZ.compare a b); simpl; intuition discriminate.
Qed.

Lemma geb_ge a b : (a >=? b) = true <-> b <= a.
Proof. reflexivity. Qed.

Lemma geb_lt a b : (a >=? b) = false <-> a < b.
Proof. apply leb_gt. Qed.

(** Boolean comparisons among the hypotheses, as order facts. *)
Ltac ez_reflect :=
  repeat match goal with
  | H : EZ.geb ?a ?b = true |- _ => change (EZ.le b a) in H
  | H : EZ.leb ?a ?b = true |- _ => change (EZ.le a b) in H
  | H : EZ.ltb ?a ?b = true |- _ => change (EZ.lt a b) in H
  | H : EZ.geb ?a ?b = false |- _ => apply geb_lt in H
  | H : EZ.leb ?a ?b = false |- _ => apply leb_gt in H
  | H : EZ.ltb ?a ?b = false |- _ => apply ltb_ge in H
  end.

Lemma min_spec a b :
  (b < a /\ EZ.min a b = b) \/ (a <= b /\ EZ.min a b = a).
Proof.
  unfold EZ.min. destruct (b <? a) eqn:E.
  - left. now rewrite ltb_lt in E.
  - right. now rewrite ltb_ge in E.
Qed.

Lemma max_spec a b :
  (a < b /\ EZ.max a b = b) \/ (b <= a /\ EZ.max a b = a).
Proof.
  unfold EZ.max. destruct (a <? b) eqn:E.
  - left. now rewrite ltb_lt in E.
  - right. now rewrite ltb_ge in E.
Qed.

Lemma NegInf_le a : NegInf <= a.
Proof. now destruct a. Qed.

Lemma le_PosInf a : a <= PosInf.
Proof. now destruct a. Qed.

Lemma NegInf_lt_PosInf : NegInf < PosInf.
Proof. reflexivity. Qed.

(** Case analysis on every [min] and [max] of the goal, then order
    reasoning. *)
Ltac ez_minmax :=
  repeat match goal with
  | |- context [EZ.min ?a ?b] =>
      let H := fresh in
      destruct (min_spec a b) as [[? H]|[? H]]; rewrite H in *; clear H
  | |- context [EZ.max ?a ?b] =>
      let H := fresh in
      destruct (max_spec a b) as [[? H]|[? H]]; rewrite H in *; clear H
  | H' : context [EZ.min ?a ?b] |- _ =>
      let H := fresh in
      destruct (min_spec a b) as [[? H]|[? H]]; rewrite H in *; clear H
  | H' : context [EZ.max ?a ?b] |- _ =>
      let H := fresh in
      destruct (max_spec a b) as [[? H]|[? H]]; rewrite H in *; clear H
  end.

(** ** [max] with a key *)

Section PyMaxFacts.
Context {A K : Type} (ltb : K -> K -> bool).

Hypothesis ltb_irrefl : forall a, ltb a a = false.
Hypothesis ltb_trans :
  forall a b c, ltb a b = true -> ltb b c = true -> ltb a c = true.
Hypothesis ltb_negtrans :
  forall a b c, ltb a b = false -> ltb b c = false -> ltb a c = false.

Lemma max_from_first_argmax (key : A -> K) (l pre : list A) best i :
  first_argmax ltb key pre i best ->
  exists i' x, max_from ltb key best l = x /\
    first_argmax ltb key (pre ++ l) i' x.
Proof using ltb_irrefl ltb_trans ltb_negtrans.
  revert pre best i. induction l as [|x l IH]; intros pre best i Hbest.
  - exists i, best. now rewrite app_nil_r.
  - simpl. replace (pre ++ x :: l) with ((pre ++ [x]) ++ l)
      by now rewrite <- app_assoc.
    destruct Hbest as (Hi & Hmax & Hfirst).
    assert (Hlt : (i < length pre)%nat) by (eapply lookup_lt_Some; eauto).
    destruct (ltb (key best) (key x)) eqn:E.
    + apply (IH (pre ++ [x]) x (length pre)). split; [|split].
      * rewrite lookup_app_r, Nat.sub_diag by lia. reflexivity.
      * intros j y Hj. apply lookup_app_Some in Hj as [Hj|[_ Hj]].
        -- destruct (ltb (key x) (key y)) eqn:E'; [|reflexivity].
           rewrite <- (Hmax j y Hj). symmetry. eauto.
        -- apply list_lookup_singleton_Some in Hj as [_ <-]. apply ltb_irrefl.
      * intros j y Hj Hy. rewrite lookup_app_l in Hy by lia.
        destruct (ltb (key y) (key x)) eqn:E'; [reflexivity|].
        rewrite <- E. symmetry. eapply ltb_negtrans; eauto.
    + apply (IH (pre ++ [x]) best i). split; [|split].
      * rewrite lookup_app_l by lia. assumption.
      * intros j y Hj. apply lookup_app_Some in Hj as [Hj|[_ Hj]]; eauto.
        apply list_lookup_singleton_Some in Hj as [_ <-]. assumption.
      * intros j y Hj Hy. rewrite lookup_app_l in Hy by lia. eauto.
Qed.

(** On a non-empty list [py_max] returns the first item of greatest key. *)
Lemma py_max_first_argmax (key : A -> K) (l : list A) :
  l <> [] -> exists i x, py_max ltb key l = Some x /\ first_argmax ltb key l i x.
Proof using ltb_irrefl ltb_trans ltb_negtrans.
  destruct l as [|x l]; [congruence|]. intros _. simpl.
  destruct (max_from_first_argmax key l [x] x 0%nat) as (i & y & <- & H).
  - split; [reflexivity|]. split.
    + intros [|j] y Hj; simpl in Hj; [|by destruct j].
      injection Hj as <-. apply ltb_irrefl.
    + intros j y Hj. lia.
  - eauto.
Qed.

End PyMaxFacts.

Lemma max_from_ext {A K} (ltb : K -> K -> bool) (key key' : A -> K) l best :
  (forall x, key x = key' x) ->
  max_from ltb key best l = max_from ltb key' best l.
Proof.
  intros H. revert best. induction l as [|x l IH]; intros best; simpl.
  - reflexivity.
  - rewrite !H. apply IH.
Qed.

Lemma py_max_ext {A K} (ltb : K -> K -> bool) (key key' : A -> K) l :
  (forall x, key x = key' x) -> py_max ltb key l = py_max ltb key' l.
Proof.
  intros H. destruct l; simpl; [reflexivity|].
  f_equal. now apply max_from_ext.
Qed.

Lemma EZ_ltb_irrefl a : (a <? a) = false.
Proof. apply ltb_ge. ez_order. Qed.

Lemma EZ_ltb_trans a b c :
  (a <? b) = true -> (b <? c) = true -> (a <? c) = true.
Proof. rewrite !ltb_lt. ez_order. Qed.

Lemma EZ_ltb_negtrans a b c :
  (a <? b) = false -> (b <? c) = false -> (a <? c) = false.
Proof. rewrite !ltb_ge. ez_order. Qed.

(** ** Alpha-beta pruning against plain minimax *)

Section AlphaBeta.
Context `{G : Isolation} (player_id : Z).

Import MinimaxAlphaBetaPlayer.

(** The equations of the source, on the integer [depth] it passes around. *)
Lemma min_value_eq state alpha beta depth :
  min_value player_id state alpha beta depth =
  if terminal_test state then utility state player_id
  else if (depth <=? 0)%Z then Fin (score player_id state)
  else min_loop
         (fun action alpha beta =>
            max_value player_id (result state action) alpha beta (depth - 1))
         alpha (actions state) PosInf beta.
Proof.
  unfold min_value, max_value. destruct (Z.leb_spec depth 0) as [H|H].
  - replace (Z.to_nat depth) with O by lia. simpl.
    now destruct (terminal_test state).
  - replace (Z.to_nat depth) with (S (Z.to_nat (depth - 1))) by lia.
    reflexivity.
Qed.

Lemma max_value_eq state alpha beta depth :
  max_value player_id state alpha beta depth =
  if terminal_test state then utility state player_id
  else if (depth <=? 0)%Z then Fin (score player_id state)
  else max_loop
         (fun action alpha beta =>
            min_value player_id (result state action) alpha beta (depth - 1))
         beta (actions state) NegInf alpha.
Proof.
  unfold min_value, max_value. destruct (Z.leb_spec depth 0) as [H|H].
  - replace (Z.to_nat depth) with O by lia. simpl.
    now destruct (terminal_test state).
  - replace (Z.to_nat depth) with (S (Z.to_nat (depth - 1))) by lia.
    reflexivity.
Qed.

Lemma fold_max_ge (f : Action -> EZ) acts v :
  v <= fold_left (fun value action => EZ.max value (f action)) acts v.
Proof.
  revert v. induction acts as [|a acts IH]; intros v; simpl.
  - ez_order.
  - specialize (IH (EZ.max v (f a))). ez_minmax; ez_order.
Qed.

Lemma fold_min_le (f : Action -> EZ) acts v :
  fold_left (fun value action => EZ.min value (f action)) acts v <= v.
Proof.
  revert v. induction acts as [|a acts IH]; intros v; simpl.
  - ez_order.
  - specialize (IH (EZ.min v (f a))). ez_minmax; ez_order.
Qed.

Lemma max_loop_ge child beta acts value alpha :
  value <= max_loop child beta acts value alpha.
Proof.
  revert value alpha. induction acts as [|a acts IH]; intros value alpha; simpl.
  - ez_order.
  - destruct (_ >=? beta).
    + ez_minmax; ez_order.
    + specialize (IH (EZ.max value (child a alpha beta))
                     (EZ.max alpha (EZ.max value (child a alpha beta)))).
      ez_minmax; ez_order.
Qed.

Lemma min_loop_le child alpha acts value beta :
  min_loop child alpha acts value beta <= value.
Proof.
  revert value beta. induction acts as [|a acts IH]; intros value beta; simpl.
  - ez_order.
  - destruct (_ <=? alpha).
    + ez_minmax; ez_order.
    + specialize (IH (EZ.min value (child a alpha beta))
                     (EZ.min beta (EZ.min value (child a alpha beta)))).
      ez_minmax; ez_order.
Qed.

Lemma le_or_gt a b : a <= b \/ b < a.
Proof. destruct (EZFacts.lt_total a b) as [?|[?|?]]; [left|left|right]; ez_order. Qed.

(** Case analysis on the premise of every implication between comparisons
    among the hypotheses. *)
Ltac ez_cases :=
  repeat match goal with
  | H : (?a <= ?b)%EZ -> _ |- _ =>
      let Hx := fresh in
      destruct (le_or_gt a b) as [Hx|Hx]; [specialize (H Hx)|clear H]
  | H : (?a < ?b)%EZ -> _ |- _ =>
      let Hx := fresh in
      destruct (le_or_gt b a) as [Hx|Hx]; [clear H|specialize (H Hx)]
  end.

Ltac ez_solve := intros; ez_minmax; ez_cases; ez_reflect; ez_order.

(** The loop of [max_value], started anywhere: [value] is the running
    maximum of the pruned search, [pvalue] that of the plain one. *)
Lemma max_loop_within (child : Action -> EZ -> EZ -> EZ) (pchild : Action -> EZ)
    beta acts :
  (forall a alpha, alpha < beta ->
     within_window (pchild a) (child a alpha beta) alpha beta) ->
  forall value pvalue alpha,
    alpha < beta -> value <= alpha -> pvalue <= value ->
    within_window
      (fold_left (fun value action => EZ.max value (pchild action)) acts pvalue)
      (max_loop child beta acts value alpha) alpha beta.
Proof.
  intros Hchild. induction acts as [|a acts IH];
    intros value pvalue alpha Hab Hva Hpv; simpl.
  - unfold within_window. repeat split; ez_order.
  - destruct (Hchild a alpha Hab) as (Hlo & Hhi & Hin).
    pose proof (fold_max_ge pchild acts (EZ.max pvalue (pchild a))) as Hfold.
    destruct (_ >=? beta) eqn:E.
    + apply geb_ge in E. unfold within_window.
      repeat split; revert Hfold E; ez_solve.
    + apply geb_lt in E.
      pose proof (max_loop_ge child beta acts
        (EZ.max value (child a alpha beta))
        (EZ.max alpha (EZ.max value (child a alpha beta)))) as Hloop.
      destruct (IH (EZ.max value (child a alpha beta))
                  (EZ.max pvalue (pchild a))
                  (EZ.max alpha (EZ.max value (child a alpha beta))))
        as (IHlo & IHhi & IHin).
      * revert E. ez_solve.
      * ez_solve.
      * revert E. ez_solve.
      * unfold within_window.
        repeat split; revert IHlo IHhi IHin Hloop Hfold E; ez_solve.
Qed.

(** The loop of [min_value], the mirror image. *)
Lemma min_loop_within (child : Action -> EZ -> EZ -> EZ) (pchild : Action -> EZ)
    alpha acts :
  (forall a beta, alpha < beta ->
     within_window (pchild a) (child a alpha beta) alpha beta) ->
  forall value pvalue beta,
    alpha < beta -> beta <= value -> value <= pvalue ->
    within_window
      (fold_left (fun value action => EZ.min value (pchild action)) acts pvalue)
      (min_loop child alpha acts value beta) alpha beta.
Proof.
  intros Hchild. induction acts as [|a acts IH];
    intros value pvalue beta Hab Hva Hpv; simpl.
  - unfold within_window. repeat split; ez_order.
  - destruct (Hchild a beta Hab) as (Hlo & Hhi & Hin).
    pose proof (fold_min_le pchild acts (EZ.min pvalue (pchild a))) as Hfold.
    destruct (_ <=? alpha) eqn:E.
    + apply leb_le in E. unfold within_window.
      repeat split; revert Hfold E; ez_solve.
    + apply leb_gt in E.
      pose proof (min_loop_le child alpha acts
        (EZ.min value (child a alpha beta))
        (EZ.min beta (EZ.min value (child a alpha beta)))) as Hloop.
      destruct (IH (EZ.min value (child a alpha beta))
                  (EZ.min pvalue (pchild a))
                  (EZ.min beta (EZ.min value (child a alpha beta))))
        as (IHlo & IHhi & IHin).
      * revert E. ez_solve.
      * ez_solve.
      * revert E. ez_solve.
      * unfold within_window.
        repeat split; revert IHlo IHhi IHin Hloop Hfold E; ez_solve.
Qed.

(** Both searches, with any window, against the plain search. *)
Lemma alpha_beta_within n :
  forall state alpha beta, alpha < beta ->
    within_window (plain_min_rec player_id n state)
      (min_value_rec player_id n state alpha beta) alpha beta /\
    within_window (plain_max_rec player_id n state)
      (max_value_rec player_id n state alpha beta) alpha beta.
Proof.
  assert (Hsame : forall v alpha beta, within_window v v alpha beta)
    by (unfold within_window; repeat split; ez_order).
  induction n as [|n IH]; intros state alpha beta Hab; simpl;
    destruct (terminal_test state); auto.
  split.
  - apply (min_loop_within
      (fun action alpha beta =>
         max_value_rec player_id n (result state action) alpha beta)
      (fun action => plain_max_rec player_id n (result state action)));
      [intros a b Hb; now apply IH | assumption | apply le_PosInf | ez_order].
  - apply (max_loop_within
      (fun action alpha beta =>
         min_value_rec player_id n (result state action) alpha beta)
      (fun action => plain_min_rec player_id n (result state action)));
      [intros a b Hb; now apply IH | assumption | apply NegInf_le | ez_order].
Qed.

(** With the full window the pruned search returns the exact value. *)
Lemma within_full_window v r : within_window v r NegInf PosInf -> r = v.
Proof.
  intros (Hlo & Hhi & Hin).
  pose proof (NegInf_le v). pose proof (le_PosInf v).
  pose proof (NegInf_le r). pose proof (le_PosInf r).
  destruct (le_or_gt r NegInf); [specialize (Hlo ltac:(assumption)); ez_order|].
  destruct (le_or_gt PosInf r); [specialize (Hhi ltac:(assumption)); ez_order|].
  symmetry. auto.
Qed.

Lemma min_value_full_window state depth :
  min_value player_id state NegInf PosInf depth =
  plain_min_value player_id state depth.
Proof.
  apply within_full_window, alpha_beta_within, NegInf_lt_PosInf.
Qed.

Lemma max_value_full_window state depth :
  max_value player_id state NegInf PosInf depth =
  plain_max_value player_id state depth.
Proof.
  apply within_full_window, alpha_beta_within, NegInf_lt_PosInf.
Qed.

(** C1.  For every state and every depth limit, [minimax_alpha_beta]
    returns the action that plain depth-limited minimax returns (same tree,
    same [score] at the depth limit, same first-occurrence tie-breaking),
    and the value it computes for each child of the root, as well as the
    value of [min_value] and [max_value] on any state with the full window,
    is the plain minimax value: pruning at [value <= alpha] and at
    [value >= beta] never changes the result. *)
Theorem alpha_beta_equals_plain_minimax (state : State) (depth : Z) :
  minimax_alpha_beta player_id state depth = plain_minimax player_id state depth
  /\ (forall a,
        min_value player_id (result state a) NegInf PosInf (depth - 1) =
        plain_min_value player_id (result state a) (depth - 1))
  /\ (forall s d,
        min_value player_id s NegInf PosInf d = plain_min_value player_id s d /\
        max_value player_id s NegInf PosInf d = plain_max_value player_id s d).
Proof.
  split; [|split].
  - apply py_max_ext. intros x. apply min_value_full_window.
  - intros a. apply min_value_full_window.
  - intros s d. split.
    + apply min_value_full_window.
    + apply max_value_full_window.
Qed.

(** C6.  On a state with a non-empty action list, for every depth (the
    depths [depth >= 1] of the iterative deepening among them),
    [minimax_alpha_beta] returns the action [a] that maximises
    [min_value(state.result(a), -inf, +inf, depth - 1)], and among the
    actions that attain the maximum the first one in the order of
    [state.actions()]. *)
Theorem minimax_alpha_beta_first_argmax (state : State) (depth : Z) :
  actions state <> [] ->
  exists i a,
    minimax_alpha_beta player_id state depth = Some a /\
    first_argmax EZ.ltb
      (fun x => min_value player_id (result state x) NegInf PosInf (depth - 1))
      (actions state) i a.
Proof.
  intros Hne. unfold minimax_alpha_beta.
  now apply (py_max_first_argmax EZ.ltb
               EZ_ltb_irrefl EZ_ltb_trans EZ_ltb_negtrans).
Qed.

End AlphaBeta.

(** ** Running monadic code *)

Lemma bind_run {W A B} (m : M W A) (f : A -> M W B) (w : W) :
  (m ≫= f) w =
  match m w with
  | Ok a w' => f a w'
  | Raise e => Raise e
  | OutOfFuel => OutOfFuel
  end.
Proof. reflexivity. Qed.

Lemma bind_ok {W A B} (m : M W A) (f : A -> M W B) (w w' : W) a :
  m w = Ok a w' -> (m ≫= f) w = f a w'.
Proof. intros H. now rewrite bind_run, H. Qed.

Lemma ret_run {W A} (a : A) (w : W) : mret (M := M W) a w = Ok a w.
Proof. reflexivity. Qed.

Section RuntimeFacts.
Context `{G : Isolation}.

Lemma randbelow_lt n g : (0 < n)%nat -> ((randbelow n g).1 < n)%nat.
Proof.
  intros Hn. destruct g as [|r g]; simpl; [assumption|].
  apply Nat.mod_upper_bound. lia.
Qed.

(** On a non-empty sequence [random.choice] returns the item at the index
    drawn and consumes one draw. *)
Lemma random_choice_ok {A} (l : list A) (w : World) :
  l <> [] ->
  exists x,
    l !! (randbelow (length l) (rng w)).1 = Some x /\ x ∈ l /\
    random_choice l w = Ok x (set_rng (randbelow (length l) (rng w)).2 w).
Proof.
  intros Hne.
  destruct (lookup_lt_is_Some_2 l (randbelow (length l) (rng w)).1) as [x Hx].
  { apply randbelow_lt. destruct l; [congruence|simpl; lia]. }
  exists x. split; [assumption|]. split.
  - eapply list_elem_of_lookup_2; eauto.
  - unfold random_choice. destruct l as [|y l]; [congruence|].
    destruct (randbelow _ _) as [i g] eqn:E. simpl in Hx. now rewrite Hx.
Qed.

Lemma random_choice_nil {A} (w : World) :
  random_choice (@nil A) w = Raise IndexError.
Proof. reflexivity. Qed.

Lemma get_node_ok (w : World) l n :
  heap w !! l = Some n -> get_node l w = Ok n w.
Proof. intros H. unfold get_node. now rewrite H. Qed.

Lemma alloc_run (w : World) n :
  alloc n w = Ok (length (heap w)) (set_heap (heap w ++ [n]) w).
Proof. reflexivity. Qed.

Lemma queue_put_run (w : World) x :
  queue_put x w = Ok tt (set_queue (queue w ++ [x]) w).
Proof. reflexivity. Qed.

End RuntimeFacts.

(** ** The opening policy *)


(** ** Iterative deepening *)

Section Deepening.
Context `{G : Isolation} (player_id : Z).
Import MinimaxAlphaBetaPlayer.

Lemma max_from_elem {A K} (ltb : K -> K -> bool) (key : A -> K) l best :
  max_from ltb key best l = best \/ max_from ltb key best l ∈ l.
Proof.
  revert best. induction l as [|z l IH]; intros best; simpl; [now left|].
  destruct (IH (if ltb (key best) (key z) then z else best)) as [H|H].
  - rewrite H. destruct (ltb _ _); [right; left|now left].
  - right. now right.
Qed.

Lemma py_max_elem {A K} (ltb : K -> K -> bool) (key : A -> K) l x :
  py_max ltb key l = Some x -> x ∈ l.
Proof.
  destruct l as [|y l]; simpl; [discriminate|]. intros [= <-].
  destruct (max_from_elem ltb key l y) as [->|H]; [left|now right].
Qed.

Lemma minimax_alpha_beta_legal state depth :
  actions state <> [] ->
  exists a, minimax_alpha_beta player_id state depth = Some a /\
            a ∈ actions state.
Proof.
  intros Hne. unfold minimax_alpha_beta.
  destruct (actions state) as [|x l] eqn:E; [congruence|].
  eexists. split; [reflexivity|]. rewrite <- E.
  eapply py_max_elem. rewrite E. reflexivity.
Qed.

(** The loop over any list of depths puts the result of each search, in
    the order of the list. *)
Lemma iterative_deepening_run state depths (w : World) :
  actions state <> [] ->
  exists acts,
    Forall2 (fun depth a =>
               minimax_alpha_beta player_id state depth = Some a /\
               a ∈ actions state) depths acts /\
    iterative_deepening player_id state depths w =
    Ok tt (set_queue (queue w ++ acts) w).
Proof.
  intros Hne. revert w. induction depths as [|d depths IH]; intros w.
  - exists []. split; [constructor|].
    destruct w; unfold set_queue; simpl. now rewrite app_nil_r.
  - destruct (minimax_alpha_beta_legal state d Hne) as (a & Ha & Hin).
    destruct (IH (set_queue (queue w ++ [a]) w)) as (acts & Hall & Hrun).
    exists (a :: acts). split; [constructor; auto|].
    unfold iterative_deepening in *. simpl. rewrite bind_run, Ha.
    rewrite queue_put_run, Hrun.
    destruct w; unfold set_queue; simpl. now rewrite <- app_assoc.
Qed.

(** C7.  On a non-terminal state with [ply_count >= 2], [get_action] runs
    the searches of depth 1, 2, 3, 4, 5 in this order and puts the result of
    each into the queue as soon as it is complete: after the first [k]
    depths the queue has received exactly [k] items, the item of depth [d]
    being the action [minimax_alpha_beta(state, d)], a legal action.  So from
    depth 1 on the most recent item of the queue is a legal action.  (That a
    non-terminal state has a legal action is the contract of the game
    state.) *)
Theorem iterative_deepening_puts_each_depth (state : State) (w : World) :
  (forall s, terminal_test s = false -> actions s <> []) ->
  terminal_test state = false ->
  (2 <= ply_count state)%Z ->
  exists acts,
    Forall2 (fun depth a =>
               minimax_alpha_beta player_id state depth = Some a /\
               a ∈ actions state) [1; 2; 3; 4; 5]%Z acts /\
    get_action player_id state w = Ok tt (set_queue (queue w ++ acts) w) /\
    forall k, (1 <= k <= 5)%nat ->
      iterative_deepening player_id state (take k [1; 2; 3; 4; 5]%Z) w =
        Ok tt (set_queue (queue w ++ take k acts) w) /\
      exists a, list.last (queue w ++ take k acts) = Some a /\
                a ∈ actions state.
Proof.
  intros Hcontract Hnt Hply. specialize (Hcontract state Hnt).
  destruct (iterative_deepening_run state [1; 2; 3; 4; 5]%Z w Hcontract)
    as (acts & Hall & Hrun).
  exists acts. split; [assumption|]. split.
  - unfold get_action. apply Z.ltb_ge in Hply. rewrite Hply. exact Hrun.
  - intros k Hk.
    destruct (iterative_deepening_run state (take k [1; 2; 3; 4; 5]%Z) w
                Hcontract) as (acts' & Hall' & Hrun').
    assert (acts' = take k acts) as ->.
    { pose proof (Forall2_take _ _ _ k Hall) as Hall''.
      clear -Hall' Hall''. revert Hall''. generalize (take k acts).
      induction Hall' as [|d a ds acts' [Ha _] _ IH]; intros l Hl;
        inversion Hl as [|? a' ? l' [Ha' _] Hl']; subst; [reflexivity|].
      f_equal; [congruence|]. now apply IH. }
    split; [assumption|].
    apply Forall2_length in Hall' as Hlen.
    rewrite length_take in Hlen. simpl in Hlen.
    destruct (list.last (take k acts)) as [a|] eqn:El.
    + exists a. split; [now rewrite last_app, El|].
      apply last_Some in El as [l' El].
      rewrite El in Hall'. apply Forall2_app_inv_r in Hall'
        as (? & ? & _ & Hlast & _).
      inversion Hlast as [|? ? ? ? [_ ?]]; subst. assumption.
    + apply last_None in El. rewrite El in Hlen. simpl in Hlen. lia.
Qed.

End Deepening.

(** ** Rollouts *)

Section Rollout.
Context `{G : Isolation}.
Import MonteCarloUCTPlayer.

(** When every move lowers [rank], a playout ends within [rank] moves. *)
Lemma playout_played (rank : State -> nat) :
  (forall s a, terminal_test s = false -> a ∈ actions s ->
     (rank (result s a) < rank s)%nat) ->
  (forall s, terminal_test s = false -> actions s <> []) ->
  forall fuel st (w : World),
    (rank st < fuel)%nat ->
    exists final g,
      played st (rng w) final g /\
      playout fuel st w = Ok final (set_rng g w).
Proof.
  intros Hrank Hmoves. induction fuel as [|fuel IH]; intros st w Hfuel; [lia|].
  simpl. destruct (terminal_test st) eqn:Ht.
  - exists st, (rng w). split; [now constructor|]. now destruct w.
  - destruct (random_choice_ok (actions st) w (Hmoves st Ht))
      as (a & Hi & Hin & Hrun).
    destruct (IH (result st a)
                (set_rng (randbelow (length (actions st)) (rng w)).2 w))
      as (final & g & Hplayed & Hrest).
    { specialize (Hrank st a Ht Hin). lia. }
    exists final, g. split.
    + eapply played_move; eauto.
    + rewrite (bind_ok _ _ _ _ _ Hrun), Hrest. now destruct w.
Qed.

(** The playout of [rollout_policy] and the reward it returns. *)
Lemma rollout_policy_run (rank : State -> nat) (fuel : nat)
    (node : loc) (n : Node) (player_arg : Z) (w : World) :
  (forall s a, terminal_test s = false -> a ∈ actions s ->
     (rank (result s a) < rank s)%nat) ->
  (forall s, terminal_test s = false -> actions s <> []) ->
  heap w !! node = Some n ->
  (rank (state n) < fuel)%nat ->
  exists final g,
    played (state n) (rng w) final g /\
    rollout_policy fuel node player_arg w =
    Ok (if _has_liberties final (player (state n)) then (-1)%Z else 1%Z)
       (set_rng g w).
Proof.
  intros Hrank Hmoves Hn Hfuel.
  destruct (playout_played rank Hrank Hmoves fuel (state n) w Hfuel)
    as (final & g & Hplayed & Hrun).
  exists final, g. split; [assumption|].
  unfold rollout_policy.
  rewrite (bind_ok _ _ _ _ _ (get_node_ok w node n Hn)).
  rewrite (bind_ok _ _ _ _ _ Hrun).
  now destruct (_has_liberties _ _).
Qed.

(** C2, as the code has it.  On a game whose playouts are finite ([rank]
    drops with every move) and whose non-terminal states have a legal
    action, [rollout_policy] on a node of the store follows the moves drawn
    by [random.choice] among the legal actions from the node's state to a
    terminal state, and returns -1 if the player who is to move at the node,
    [node.state.player()], has liberties in that terminal state, and +1
    otherwise.  The store is not modified. *)
Theorem rollout_policy_reward (rank : State -> nat) (fuel : nat)
    (node : loc) (n : Node) (player_arg : Z) (w : World) :
  (forall s a, terminal_test s = false -> a ∈ actions s ->
     (rank (result s a) < rank s)%nat) ->
  (forall s, terminal_test s = false -> actions s <> []) ->
  heap w !! node = Some n ->
  (rank (state n) < fuel)%nat ->
  exists final g,
    played (state n) (rng w) final g /\
    rollout_policy fuel node player_arg w =
    Ok (if _has_liberties final (player (state n)) then (-1)%Z else 1%Z)
       (set_rng g w).
Proof. apply rollout_policy_run. Qed.

(** C10.  The [player] argument of [rollout_policy] has no influence on
    its outcome: with the same store, the same node and the same random
    draws, two calls that differ in that argument only return the same
    reward and leave the same world. *)
Theorem rollout_policy_ignores_player (fuel : nat) (node : loc)
    (p1 p2 : Z) (w : World) :
  rollout_policy fuel node p1 w = rollout_policy fuel node p2 w.
Proof. reflexivity. Qed.

End Rollout.

(** ** A terminal root *)

Section TerminalRoot.
Context `{G : Isolation}.
Import MonteCarloUCTPlayer.

Lemma monte_carlo_uct_terminal fuel st (w : World) :
  terminal_test st = true ->
  monte_carlo_uct fuel st w =
  random_choice (actions st)
    (set_heap (heap w ++ [mkNode 1 0 st [] [] None]) w).
Proof.
  intros Ht. unfold monte_carlo_uct, Node.init.
  rewrite (bind_ok _ _ _ _ _ (alloc_run w _)).
  erewrite bind_ok.
  2:{ apply get_node_ok. simpl.
      rewrite lookup_app_r, Nat.sub_diag by lia. reflexivity. }
  simpl. now rewrite Ht.
Qed.

(** C3, as the code has it.  On a root state whose [terminal_test()] is
    true and whose action list is not empty, [monte_carlo_uct] returns
    [random.choice(state.actions())], an element of the action list, after
    creating the root node and nothing else: the root is never expanded, no
    playout is run and the clock is not read. *)
Theorem monte_carlo_uct_terminal_root (fuel : nat) (st : State) (w : World) :
  terminal_test st = true ->
  actions st <> [] ->
  exists a,
    a ∈ actions st /\
    actions st !! (randbelow (length (actions st)) (rng w)).1 = Some a /\
    monte_carlo_uct fuel st w =
    Ok a (mkWorld (randbelow (length (actions st)) (rng w)).2 (clock w)
            (heap w ++ [mkNode 1 0 st [] [] None]) (queue w)).
Proof.
  intros Ht Hne. rewrite (monte_carlo_uct_terminal _ _ _ Ht).
  destruct (random_choice_ok (actions st)
              (set_heap (heap w ++ [mkNode 1 0 st [] [] None]) w) Hne)
    as (a & Hi & Hin & Hrun).
  exists a. split; [assumption|]. split; [assumption|]. exact Hrun.
Qed.

End TerminalRoot.

(** ** Expansion *)

Section Expand.
Context `{G : Isolation}.
Import MonteCarloUCTPlayer.

Lemma first_untried_first (possible tried : list Action) :
  (exists a, a ∈ possible /\ a ∉ tried) ->
  exists pre a post,
    possible = pre ++ a :: post /\
    (forall x, (x ∈ pre) -> (x ∈ tried)) /\
    (a ∉ tried) /\
    first_untried possible tried = Some a.
Proof.
  induction possible as [|x l IH]; intros (a & Hin & Hnot).
  - inversion Hin.
  - simpl. destruct (decide (x ∈ tried)) as [Hx|Hx].
    + destruct IH as (pre & b & post & -> & Hpre & Hb & Hfirst).
      { exists a. split; [|assumption].
        apply elem_of_cons in Hin as [->|Hin]; [contradiction|assumption]. }
      exists (x :: pre), b, post. repeat split; auto.
      intros y Hy. apply elem_of_cons in Hy as [->|Hy]; auto.
    + exists [], x, l. repeat split; auto. intros y Hy. inversion Hy.
Qed.

Lemma add_child_run (w : World) node n child_state action :
  heap w !! node = Some n ->
  Node.add_child node child_state action w =
  Ok tt (set_heap
           (<[node := mkNode (visits n) (value n) (state n)
                        (children n ++ [length (heap w)])
                        (child_actions n ++ [action]) (parent n)]>
              (heap w ++ [mkNode 1 0 child_state [] [] (Some node)])) w).
Proof.
  intros Hn. unfold Node.add_child, Node.init.
  rewrite (bind_ok _ _ _ _ _ (alloc_run w _)).
  assert (Hn' : (heap w ++ [mkNode 1 0 child_state [] [] (Some node)]) !! node
                = Some n).
  { rewrite lookup_app_l by (eapply lookup_lt_Some; eauto). assumption. }
  rewrite (bind_ok _ _ _ _ _ (get_node_ok (set_heap _ w) node n Hn')).
  reflexivity.
Qed.

(** What [expand] does to the store. *)
Lemma expand_run (node : loc) (n : Node) (w : World) :
  heap w !! node = Some n ->
  (exists a, a ∈ actions (state n) /\ a ∉ child_actions n) ->
  NoDup (child_actions n) ->
  exists pre a post,
    actions (state n) = pre ++ a :: post /\
    (forall x, (x ∈ pre) -> (x ∈ child_actions n)) /\
    (a ∉ child_actions n) /\
    let c := length (heap w) in
    expand node w =
    Ok c (set_heap
            (<[node := mkNode (visits n) (value n) (state n)
                         (children n ++ [c]) (child_actions n ++ [a])
                         (parent n)]>
               (heap w ++ [mkNode 1 0 (result (state n) a) [] [] (Some node)]))
            w) /\
    NoDup (child_actions n ++ [a]).
Proof.
  intros Hn Huntried Hnodup.
  destruct (first_untried_first _ _ Huntried)
    as (pre & a & post & Hsplit & Hpre & Ha & Hfirst).
  exists pre, a, post. repeat split; auto.
  - unfold expand.
    rewrite (bind_ok _ _ _ _ _ (get_node_ok w node n Hn)). rewrite Hfirst.
    rewrite (bind_ok _ _ _ _ _ (add_child_run w node n _ a Hn)).
    erewrite bind_ok.
    2:{ apply get_node_ok. simpl. apply list_lookup_insert_eq.
        rewrite length_app. apply lookup_lt_Some in Hn. lia. }
    simpl. now rewrite last_snoc.
  - apply list.NoDup_app. repeat split; auto.
    + intros x Hx Hx'. apply list_elem_of_singleton in Hx'. now subst.
    + apply NoDup_singleton.
Qed.

(** C9.  On a node that has a legal action absent from its
    [child_actions], [expand] creates exactly one node: a child for the first
    action of [node.state.actions()] that is not in [child_actions], holding
    the state [node.state.result(action)], with the node as its parent.  The
    child and the action are appended to the node's [children] and
    [child_actions], every other node is left as it was, the child is
    returned, and [child_actions], when free of duplicates before, is free of
    duplicates afterwards. *)
Theorem expand_attaches_first_untried (node : loc) (n : Node) (w : World) :
  heap w !! node = Some n ->
  (exists a, a ∈ actions (state n) /\ a ∉ child_actions n) ->
  NoDup (child_actions n) ->
  exists pre a post,
    actions (state n) = pre ++ a :: post /\
    (forall x, (x ∈ pre) -> (x ∈ child_actions n)) /\
    (a ∉ child_actions n) /\
    let c := length (heap w) in
    expand node w =
    Ok c (set_heap
            (<[node := mkNode (visits n) (value n) (state n)
                         (children n ++ [c]) (child_actions n ++ [a])
                         (parent n)]>
               (heap w ++ [mkNode 1 0 (result (state n) a) [] [] (Some node)]))
            w) /\
    NoDup (child_actions n ++ [a]).
Proof. apply expand_run. Qed.

End Expand.

(** ** Backpropagation *)

Section Backprop.
Context `{G : Isolation}.
Import MonteCarloUCTPlayer.

Lemma update_run (w : World) l n v :
  heap w !! l = Some n ->
  Node.update l v w = Ok tt (set_heap (<[l := visited v n]> (heap w)) w).
Proof.
  intros Hn. unfold Node.update.
  rewrite (bind_ok _ _ _ _ _ (get_node_ok w l n Hn)). reflexivity.
Qed.

(** Upwards the locations decrease. *)
Lemma ancestor_le h l d a :
  parents_first h -> ancestor h l d = Some a ->
  (a <= l)%nat /\ (d <> O -> (a < l)%nat).
Proof.
  intros Hwf. revert l. induction d as [|d IH]; intros l; simpl.
  - intros [= ->]. split; [lia|congruence].
  - destruct (h !! l) as [n|] eqn:Hn; [|discriminate].
    destruct (parent n) as [p|] eqn:Hp; [|discriminate].
    intros Ha. destruct (IH _ Ha) as [Hle _].
    specialize (Hwf l n p Hn Hp). lia.
Qed.

Lemma ancestor_S h x d :
  ancestor h x (S d) =
  match h !! x with
  | Some n => match parent n with Some p => ancestor h p d | None => None end
  | None => None
  end.
Proof. reflexivity. Qed.

(** An update of a node that keeps its parent keeps all ancestors. *)
Lemma ancestor_insert h l n n' x d :
  h !! l = Some n -> parent n' = parent n ->
  ancestor (<[l := n']> h) x d = ancestor h x d.
Proof.
  intros Hn Hp. revert x. induction d as [|d IH]; intros x; [reflexivity|].
  rewrite !ancestor_S. destruct (decide (l = x)) as [->|Hne].
  - rewrite list_lookup_insert_eq by (eapply lookup_lt_Some; eauto).
    rewrite Hn, Hp. destruct (parent n); auto.
  - rewrite list_lookup_insert_ne by assumption.
    destruct (h !! x) as [m|]; auto. destruct (parent m); auto.
Qed.

Lemma parents_first_insert h l n n' :
  h !! l = Some n -> parent n' = parent n ->
  parents_first h -> parents_first (<[l := n']> h).
Proof.
  intros Hn Hp Hwf x m p Hm Hmp.
  destruct (decide (l = x)) as [->|Hne].
  - rewrite list_lookup_insert_eq in Hm by (eapply lookup_lt_Some; eauto).
    injection Hm as <-. rewrite Hp in Hmp. eauto.
  - rewrite list_lookup_insert_ne in Hm by assumption. eauto.
Qed.

Lemma backprop_run fuel :
  forall (w : World) leaf v,
    parents_first (heap w) ->
    (leaf < length (heap w))%nat ->
    (leaf + 2 <= fuel)%nat ->
    exists h',
      backprop fuel (Some leaf) v w = Ok tt (set_heap h' w) /\
      length h' = length (heap w) /\
      forall l n, heap w !! l = Some n ->
        (forall d, ancestor (heap w) leaf d = Some l ->
           h' !! l = Some (visited ((-1) ^ Z.of_nat d * v) n)) /\
        ((forall d, ancestor (heap w) leaf d <> Some l) -> h' !! l = Some n).
Proof.
  induction fuel as [|fuel IH]; intros w leaf v Hwf Hleaf Hfuel; [lia|].
  destruct (lookup_lt_is_Some_2 _ _ Hleaf) as [n Hn].
  set (h1 := <[leaf := visited v n]> (heap w)).
  assert (Hn1 : h1 !! leaf = Some (visited v n))
    by now apply list_lookup_insert_eq.
  assert (Hrun :
    backprop (S fuel) (Some leaf) v w =
    backprop fuel (parent n) (- v) (set_heap h1 w)).
  { simpl.
    rewrite (bind_ok _ _ _ _ _ (update_run w leaf n v Hn)).
    rewrite (bind_ok _ _ _ _ _ (get_node_ok (set_heap h1 w) leaf _ Hn1)).
    reflexivity. }
  rewrite Hrun. clear Hrun.
  destruct (parent n) as [p|] eqn:Hp.
  - pose proof (Hwf leaf n p Hn Hp) as Hlt.
    destruct (IH (set_heap h1 w) p (- v)%Z) as (h' & Hrun & Hlen & Hupd).
    { now apply (parents_first_insert _ _ n). }
    { simpl. unfold h1. rewrite length_insert. lia. }
    { lia. }
    exists h'. split; [now destruct w|]. split.
    { rewrite Hlen. simpl. apply length_insert. }
    simpl in Hupd.
    assert (Hanc : forall x d, ancestor h1 x d = ancestor (heap w) x d)
      by (intros; now apply (ancestor_insert _ _ n)).
    assert (Hup : forall d, ancestor (heap w) leaf (S d) = ancestor (heap w) p d)
      by (intros; simpl; now rewrite Hn, Hp).
    assert (Hnotleaf : forall d, ancestor h1 p d <> Some leaf).
    { intros d Hd. rewrite Hanc in Hd.
      apply ancestor_le in Hd as [? _]; [lia|assumption]. }
    intros l m Hm. destruct (decide (l = leaf)) as [->|Hne].
    + assert (m = n) as -> by congruence.
      destruct (Hupd leaf _ Hn1) as [_ Hsame]. split.
      * intros [|d] Hd.
        -- rewrite (Hsame Hnotleaf). do 2 f_equal. lia.
        -- apply ancestor_le in Hd as [_ Hd]; [lia|assumption].
      * intros Hno. now specialize (Hno O).
    + assert (Hm1 : h1 !! l = Some m)
        by (unfold h1; now rewrite list_lookup_insert_ne).
      destruct (Hupd l m Hm1) as [Hchanged Hsame]. split.
      * intros [|d] Hd; [simpl in Hd; congruence|].
        rewrite Hup, <- Hanc in Hd. rewrite (Hchanged d Hd).
        do 2 f_equal. rewrite Nat2Z.inj_succ, Z.pow_succ_r; lia.
      * intros Hno. apply Hsame. intros d Hd.
        apply (Hno (S d)). now rewrite Hup, <- Hanc.
  - exists h1. split.
    { destruct fuel; [lia|]. now destruct w. }
    split; [apply length_insert|].
    intros l m Hm. destruct (decide (l = leaf)) as [->|Hne].
    + assert (m = n) as -> by congruence. split.
      * intros [|d] Hd.
        -- rewrite Hn1. do 2 f_equal. lia.
        -- simpl in Hd. now rewrite Hn, Hp in Hd.
      * intros Hno. now specialize (Hno O).
    + split.
      * intros [|d] Hd; [simpl in Hd; congruence|].
        simpl in Hd. now rewrite Hn, Hp in Hd.
      * intros _. unfold h1. now rewrite list_lookup_insert_ne.
Qed.


End Backprop.

(** ** Selection *)

Lemma Rltb_irrefl a : Rltb a a = false.
Proof. unfold Rltb. destruct (Rlt_dec a a); [lra|reflexivity]. Qed.

Lemma Rltb_trans a b c :
  Rltb a b = true -> Rltb b c = true -> Rltb a c = true.
Proof.
  unfold Rltb. destruct (Rlt_dec a b), (Rlt_dec b c), (Rlt_dec a c);
    intros; try discriminate; try reflexivity; lra.
Qed.

Lemma Rltb_negtrans a b c :
  Rltb a b = false -> Rltb b c = false -> Rltb a c = false.
Proof.
  unfold Rltb. destruct (Rlt_dec a b), (Rlt_dec b c), (Rlt_dec a c);
    intros; try discriminate; try reflexivity; lra.
Qed.

Lemma index_of_first {A} `{EqDecision A} (x : A) (l : list A) j :
  index_of x l = Some j ->
  l !! j = Some x /\ forall k, (k < j)%nat -> l !! k <> Some x.
Proof.
  revert j. induction l as [|y l IH]; intros j; simpl; [discriminate|].
  destruct (decide (y = x)) as [->|Hne].
  - intros [= <-]. split; [reflexivity|]. intros k Hk. lia.
  - destruct (index_of x l) as [j'|]; [|discriminate].
    intros [= <-]. destruct (IH j' eq_refl) as [Hj Hfirst].
    split; [assumption|]. intros [|k] Hk; simpl.
    + congruence.
    + apply Hfirst. lia.
Qed.

Lemma index_of_elem {A} `{EqDecision A} (x : A) (l : list A) :
  x ∈ l -> exists j, index_of x l = Some j.
Proof.
  induction l as [|y l IH]; intros Hin; [inversion Hin|]. simpl.
  destruct (decide (y = x)) as [->|Hne]; [eauto|].
  apply elem_of_cons in Hin as [->|Hin]; [congruence|].
  destruct (IH Hin) as [j ->]. simpl. eauto.
Qed.

(** The first item of greatest key is the first occurrence of itself. *)
Lemma first_argmax_index {A K} `{EqDecision A} (ltb : K -> K -> bool)
    (key : A -> K) (l : list A) i x :
  (forall a, ltb a a = false) ->
  first_argmax ltb key l i x -> index_of x l = Some i.
Proof.
  intros Hirr (Hi & _ & Hfirst).
  destruct (index_of_elem x l) as [j Hj].
  { eapply list_elem_of_lookup_2; eauto. }
  destruct (index_of_first x l j Hj) as [Hjx Hmin].
  destruct (Nat.lt_trichotomy j i) as [Hlt|[->|Hgt]].
  - specialize (Hfirst j x Hlt Hjx). rewrite Hirr in Hfirst. discriminate.
  - assumption.
  - now specialize (Hmin i Hgt).
Qed.

Lemma first_argmax_ext {A K} (ltb : K -> K -> bool) (key key' : A -> K) l i x :
  (forall a, key a = key' a) ->
  first_argmax ltb key l i x -> first_argmax ltb key' l i x.
Proof.
  intros Hext (Hi & Hmax & Hfirst). split; [assumption|].
  split; intros j y; rewrite <- !Hext; eauto.
Qed.

Section Selection.
Context `{G : Isolation}.
Import MonteCarloUCTPlayer.

Lemma exploit_run (w : World) c cn :
  heap w !! c = Some cn ->
  exploit c w = Ok (IZR (value cn) / IPR (visits cn))%R w.
Proof.
  intros Hc. unfold exploit.
  now rewrite (bind_ok _ _ _ _ _ (get_node_ok w c cn Hc)).
Qed.

Lemma explore_run (w : World) node n c cn :
  heap w !! node = Some n ->
  heap w !! c = Some cn -> parent cn = Some node ->
  explore c w = Ok (sqrt (2 * ln (IPR (visits n)) / IPR (visits cn)))%R w.
Proof.
  intros Hn Hc Hp. unfold explore.
  rewrite (bind_ok _ _ _ _ _ (get_node_ok w c cn Hc)). rewrite Hp.
  now rewrite (bind_ok _ _ _ _ _ (get_node_ok w node n Hn)).
Qed.

Lemma uct_key_run (w : World) node n factor c :
  heap w !! node = Some n ->
  (exists cn, heap w !! c = Some cn /\ parent cn = Some node) ->
  uct_key factor c w = Ok (ucb (heap w) n factor c) w.
Proof.
  intros Hn (cn & Hc & Hp). unfold uct_key, ucb. rewrite Hc.
  rewrite (bind_ok _ _ _ _ _ (exploit_run w c cn Hc)).
  now rewrite (bind_ok _ _ _ _ _ (explore_run w node n c cn Hn Hc Hp)).
Qed.

Lemma keyed_run (w : World) node n factor l :
  heap w !! node = Some n ->
  (forall c, (c ∈ l) ->
     exists cn, heap w !! c = Some cn /\ parent cn = Some node) ->
  keyed factor l w = Ok (map (fun c => (c, ucb (heap w) n factor c)) l) w.
Proof.
  intros Hn. induction l as [|c l IH]; intros Hl; [reflexivity|]. simpl.
  rewrite (bind_ok _ _ _ _ _ (uct_key_run w node n factor c Hn
                                (Hl c (list_elem_of_here _ _)))).
  rewrite (bind_ok _ _ _ _ _ (IH (fun x Hx => Hl x (list_elem_of_further _ _ _ Hx)))).
  reflexivity.
Qed.

Lemma first_argmax_keyed {A} (key : A -> R) (l : list A) i c k :
  first_argmax Rltb snd (map (fun c => (c, key c)) l) i (c, k) ->
  first_argmax Rltb key l i c.
Proof.
  intros (Hi & Hmax & Hfirst).
  rewrite list_lookup_fmap in Hi.
  destruct (l !! i) as [c'|] eqn:Hc; [|discriminate].
  injection Hi as -> <-. split; [assumption|]. split.
  - intros j y Hy. apply (Hmax j (y, key y)).
    now rewrite list_lookup_fmap, Hy.
  - intros j y Hj Hy. apply (Hfirst j (y, key y) Hj).
    now rewrite list_lookup_fmap, Hy.
Qed.

Lemma best_child_run (w : World) node n factor :
  heap w !! node = Some n ->
  children n <> [] ->
  children_linked (heap w) node n ->
  exists i c,
    best_child node factor w = Ok c w /\
    first_argmax Rltb (ucb (heap w) n factor) (children n) i c.
Proof.
  intros Hn Hne Hlinked.
  destruct (py_max_first_argmax Rltb Rltb_irrefl Rltb_trans Rltb_negtrans snd
              (map (fun c => (c, ucb (heap w) n factor c)) (children n)))
    as (i & [c k] & Hmax & Hfirst).
  { destruct (children n); [congruence|discriminate]. }
  exists i, c. split.
  - unfold best_child.
    rewrite (bind_ok _ _ _ _ _ (get_node_ok w node n Hn)).
    rewrite (bind_ok _ _ _ _ _ (keyed_run w node n factor _ Hn Hlinked)).
    now rewrite Hmax.
  - eapply first_argmax_keyed; eauto.
Qed.

Lemma ucb_0 h n c : ucb h n 0 c = average h c.
Proof. unfold ucb, average. destruct (h !! c); [lra|reflexivity]. Qed.

Lemma final_move_run (w : World) root n :
  heap w !! root = Some n ->
  children n <> [] ->
  children_linked (heap w) root n ->
  length (child_actions n) = length (children n) ->
  exists i c a,
    best_child root 0 w = Ok c w /\
    first_argmax Rltb (average (heap w)) (children n) i c /\
    child_actions n !! i = Some a /\
    final_move root w = Ok a w.
Proof.
  intros Hn Hne Hlinked Hlen.
  destruct (best_child_run w root n 0 Hn Hne Hlinked) as (i & c & Hrun & Hmax).
  apply (first_argmax_ext _ _ (average (heap w))) in Hmax; [|apply ucb_0].
  destruct (lookup_lt_is_Some_2 (child_actions n) i) as [a Ha].
  { rewrite Hlen. destruct Hmax as [Hi _]. eapply lookup_lt_Some; eauto. }
  exists i, c, a. repeat split; try assumption; try apply Hmax.
  unfold final_move.
  rewrite (bind_ok _ _ _ _ _ Hrun).
  rewrite (bind_ok _ _ _ _ _ (get_node_ok w root n Hn)).
  rewrite (first_argmax_index _ _ _ _ _ Rltb_irrefl Hmax). now rewrite Ha.
Qed.

Lemma monte_carlo_uct_nonterminal fuel st (w : World) :
  terminal_test st = false ->
  monte_carlo_uct fuel st w =
  (search fuel (length (heap w)) st ;; final_move (length (heap w)))
    (set_heap (heap w ++ [mkNode 1 0 st [] [] None]) w).
Proof.
  intros Ht. unfold monte_carlo_uct, Node.init.
  rewrite (bind_ok _ _ _ _ _ (alloc_run w _)).
  erewrite bind_ok.
  2:{ apply get_node_ok. simpl.
      rewrite lookup_app_r, Nat.sub_diag by lia. reflexivity. }
  simpl. now rewrite Ht.
Qed.

End Selection.

(** ** The search as a whole *)

Section TreeFacts.
Context `{G : Isolation}.
Import MonteCarloUCTPlayer.

(** A node that records fewer actions than its state has holds an untried
    one, when neither list repeats an action. *)
Lemma untried_exists (possible tried : list Action) :
  NoDup possible -> NoDup tried ->
  (forall a, (a ∈ tried) -> (a ∈ possible)) ->
  length tried <> length possible ->
  exists a, a ∈ possible /\ a ∉ tried.
Proof.
  intros Hp Ht Hsub Hlen.
  destruct (decide (Forall (fun a => a ∈ tried) possible)) as [Hall|Hnot].
  - exfalso. apply Hlen. apply Permutation_length.
    apply NoDup_Permutation; auto.
    intros x. split; [apply Hsub|]. rewrite list.Forall_forall in Hall. apply Hall.
  - apply not_Forall_Exists in Hnot; [|intros x; apply _].
    apply list.Exists_exists in Hnot as (a & Ha & Hna). eauto.
Qed.

Lemma tree_ok_root (h : list Node) (st : State) :
  tree_ok h -> tree_ok (h ++ [mkNode 1 0 st [] [] None]).
Proof.
  intros [Hpar Hnodes]. split.
  - intros l n p Hn Hp. apply lookup_app_Some in Hn as [Hn|[_ Hn]].
    + eauto.
    + apply list_lookup_singleton_Some in Hn as [_ <-]. discriminate.
  - intros l n Hn. apply lookup_app_Some in Hn as [Hn|[_ Hn]].
    + destruct (Hnodes l n Hn) as (Hlink & Hrest). split; [|assumption].
      intros c Hc. destruct (Hlink c Hc) as (cn & Hcn & Hp).
      exists cn. split; [|assumption]. now apply lookup_app_l_Some.
    + apply list_lookup_singleton_Some in Hn as [_ <-].
      repeat split; simpl; auto using NoDup_nil_2.
      * intros c Hc. inversion Hc.
      * intros a Ha. inversion Ha.
Qed.

(** The store after [expand]. *)
Lemma tree_ok_expand (h : list Node) node n a :
  tree_ok h -> h !! node = Some n ->
  a ∈ actions (state n) -> a ∉ child_actions n ->
  tree_ok (<[node := mkNode (visits n) (value n) (state n)
                       (children n ++ [length h]) (child_actions n ++ [a])
                       (parent n)]>
             (h ++ [mkNode 1 0 (result (state n) a) [] [] (Some node)])).
Proof.
  intros [Hpar Hnodes] Hn Ha Hnew.
  pose proof (lookup_lt_Some _ _ _ Hn) as Hlt.
  set (n' := mkNode _ _ _ _ _ _).
  set (child := mkNode 1 0 _ _ _ _).
  assert (Hlook : forall l m, (<[node := n']> (h ++ [child])) !! l = Some m ->
    (l = node /\ m = n') \/
    (l <> node /\ h !! l = Some m) \/
    (l = length h /\ m = child)).
  { intros l m Hm. destruct (decide (node = l)) as [<-|Hne].
    - rewrite list_lookup_insert_eq in Hm by (rewrite length_app; lia).
      left. split; congruence.
    - rewrite list_lookup_insert_ne in Hm by assumption.
      apply lookup_app_Some in Hm as [Hm|[Hge Hm]]; [right; left; auto|].
      apply list_lookup_singleton_Some in Hm as [Hl <-].
      right; right. split; [lia|reflexivity]. }
  assert (Hkeep : forall c cn p, h !! c = Some cn -> parent cn = Some p ->
    exists cn', (<[node := n']> (h ++ [child])) !! c = Some cn' /\
                parent cn' = Some p).
  { intros c cn p Hc Hp. destruct (decide (node = c)) as [<-|Hne].
    - exists n'. split.
      + apply list_lookup_insert_eq. rewrite length_app. lia.
      + simpl. congruence.
    - exists cn. split; [|assumption].
      rewrite list_lookup_insert_ne by assumption.
      now apply lookup_app_l_Some. }
  split.
  - intros l m p Hm Hp. destruct (Hlook l m Hm) as [[-> ->]|[[_ Hm']|[-> ->]]].
    + simpl in Hp. eauto.
    + eauto.
    + simpl in Hp. injection Hp as <-. assumption.
  - intros l m Hm. destruct (Hlook l m Hm) as [[-> ->]|[[_ Hm']|[-> ->]]].
    + destruct (Hnodes node n Hn) as (Hlink & Hlen & Hnd & Hsub).
      repeat split; simpl.
      * intros c Hc. apply elem_of_app in Hc as [Hc|Hc].
        -- destruct (Hlink c Hc) as (cn & Hcn & Hp). eauto.
        -- apply list_elem_of_singleton in Hc as ->.
           exists child. split; [|reflexivity].
           rewrite list_lookup_insert_ne by lia.
           rewrite lookup_app_r, Nat.sub_diag by lia. reflexivity.
      * rewrite !length_app. simpl. lia.
      * apply list.NoDup_app. repeat split; auto using NoDup_singleton.
        intros x Hx Hx'. apply list_elem_of_singleton in Hx'. now subst.
      * intros x Hx. apply elem_of_app in Hx as [Hx|Hx]; auto.
        apply list_elem_of_singleton in Hx. now subst.
    + destruct (Hnodes l m Hm') as (Hlink & Hrest). split; [|assumption].
      intros c Hc. destruct (Hlink c Hc) as (cn & Hcn & Hp). eauto.
    + repeat split; simpl; auto using NoDup_nil_2.
      * intros c Hc. inversion Hc.
      * intros x Hx. inversion Hx.
Qed.

Lemma grows_refl (h : list Node) : grows h h.
Proof. split; [lia|]. intros l n Hn. exists n. auto. Qed.

Lemma grows_trans (h1 h2 h3 : list Node) :
  grows h1 h2 -> grows h2 h3 -> grows h1 h3.
Proof.
  intros [Hlen1 H1] [Hlen2 H2]. split; [lia|]. intros l n Hn.
  destruct (H1 l n Hn) as (n' & Hn' & Hs & Hp & Hc).
  destruct (H2 l n' Hn') as (n'' & Hn'' & Hs' & Hp' & Hc').
  exists n''. repeat split; try congruence. auto.
Qed.

Lemma grows_root (h : list Node) (st : State) :
  grows h (h ++ [mkNode 1 0 st [] [] None]).
Proof.
  split; [rewrite length_app; lia|]. intros l n Hn. exists n.
  split; [now apply lookup_app_l_Some|auto].
Qed.

Lemma grows_expand (h : list Node) node n a :
  h !! node = Some n ->
  grows h (<[node := mkNode (visits n) (value n) (state n)
                       (children n ++ [length h]) (child_actions n ++ [a])
                       (parent n)]>
             (h ++ [mkNode 1 0 (result (state n) a) [] [] (Some node)])).
Proof.
  intros Hn. pose proof (lookup_lt_Some _ _ _ Hn) as Hlt. split.
  - rewrite length_insert, length_app. lia.
  - intros l m Hm. destruct (decide (node = l)) as [<-|Hne].
    + eexists. split.
      * apply list_lookup_insert_eq. rewrite length_app. lia.
      * assert (m = n) as -> by congruence. simpl. repeat split.
        intros _ Hnil. now apply app_eq_nil in Hnil as [_ ?].
    + exists m. rewrite list_lookup_insert_ne by assumption.
      split; [now apply lookup_app_l_Some|auto].
Qed.

Lemma ranked_root (rank : State -> nat) bound (h : list Node) st :
  ranked rank bound h -> (rank st <= bound)%nat ->
  ranked rank bound (h ++ [mkNode 1 0 st [] [] None]).
Proof.
  intros Hr Hst l n Hn. apply lookup_app_Some in Hn as [Hn|[_ Hn]]; [eauto|].
  apply list_lookup_singleton_Some in Hn as [_ <-]. assumption.
Qed.

Lemma ranked_expand (rank : State -> nat) bound (h : list Node) node n a :
  ranked rank bound h -> h !! node = Some n ->
  (rank (result (state n) a) <= bound)%nat ->
  ranked rank bound
    (<[node := mkNode (visits n) (value n) (state n)
                 (children n ++ [length h]) (child_actions n ++ [a])
                 (parent n)]>
       (h ++ [mkNode 1 0 (result (state n) a) [] [] (Some node)])).
Proof.
  intros Hr Hn Ha l m Hm. pose proof (lookup_lt_Some _ _ _ Hn) as Hlt.
  destruct (decide (node = l)) as [<-|Hne].
  - rewrite list_lookup_insert_eq in Hm by (rewrite length_app; lia).
    injection Hm as <-. simpl. eauto.
  - rewrite list_lookup_insert_ne in Hm by assumption.
    apply lookup_app_Some in Hm as [Hm|[_ Hm]]; [eauto|].
    apply list_lookup_singleton_Some in Hm as [_ <-]. assumption.
Qed.

(** Stores that differ in visits and values only. *)
Lemma same_links_refl (h : list Node) : same_links h h.
Proof. split; [reflexivity|]. intros l n Hn. exists n. auto. Qed.

Lemma same_links_trans (h1 h2 h3 : list Node) :
  same_links h1 h2 -> same_links h2 h3 -> same_links h1 h3.
Proof.
  intros [Hlen1 H1] [Hlen2 H2]. split; [congruence|]. intros l n Hn.
  destruct (H1 l n Hn) as (n' & Hn' & ? & ? & ? & ?).
  destruct (H2 l n' Hn') as (n'' & Hn'' & ? & ? & ? & ?).
  exists n''. repeat split; congruence.
Qed.

Lemma same_links_visited (h : list Node) l n v :
  h !! l = Some n -> same_links h (<[l := visited v n]> h).
Proof.
  intros Hn. split; [apply length_insert|]. intros x m Hm.
  destruct (decide (l = x)) as [<-|Hne].
  - exists (visited v n).
    rewrite list_lookup_insert_eq by (eapply lookup_lt_Some; eauto).
    assert (m = n) as -> by congruence. auto.
  - exists m. rewrite list_lookup_insert_ne by assumption. auto.
Qed.

(** The converse reading of [same_links]. *)
Lemma same_links_inv (h h' : list Node) l n' :
  same_links h h' -> h' !! l = Some n' ->
  exists n, h !! l = Some n /\ state n' = state n /\
            children n' = children n /\
            child_actions n' = child_actions n /\ parent n' = parent n.
Proof.
  intros [Hlen Hsame] Hn'.
  destruct (lookup_lt_is_Some_2 h l) as [n Hn].
  { rewrite <- Hlen. eapply lookup_lt_Some; eauto. }
  destruct (Hsame l n Hn) as (m & Hm & Hrest).
  assert (m = n') as -> by congruence. eauto.
Qed.

Lemma same_links_tree_ok (h h' : list Node) :
  same_links h h' -> tree_ok h -> tree_ok h'.
Proof.
  intros Hsame [Hpar Hnodes]. split.
  - intros l n' p Hn' Hp.
    destruct (same_links_inv _ _ _ _ Hsame Hn') as (n & Hn & _ & _ & _ & Hpn).
    apply (Hpar l n p Hn). congruence.
  - intros l n' Hn'.
    destruct (same_links_inv _ _ _ _ Hsame Hn') as (n & Hn & Hs & Hc & Ha & _).
    destruct (Hnodes l n Hn) as (Hlink & Hlen & Hnd & Hsub).
    unfold node_ok. rewrite Hs, Hc, Ha. repeat split; auto.
    intros c Hcin. rewrite Hc in Hcin.
    destruct (Hlink c Hcin) as (cn & Hcn & Hp).
    destruct Hsame as [_ Hsame].
    destruct (Hsame c cn Hcn) as (cn' & Hcn' & _ & _ & _ & Hp').
    exists cn'. split; [assumption|congruence].
Qed.

Lemma same_links_grows (h h' : list Node) : same_links h h' -> grows h h'.
Proof.
  intros [Hlen Hsame]. split; [lia|]. intros l n Hn.
  destruct (Hsame l n Hn) as (n' & Hn' & Hs & Hc & _ & Hp).
  exists n'. repeat split; auto. congruence.
Qed.

Lemma same_links_ranked (rank : State -> nat) bound (h h' : list Node) :
  same_links h h' -> ranked rank bound h -> ranked rank bound h'.
Proof.
  intros Hsame Hr l n' Hn'.
  destruct (same_links_inv _ _ _ _ Hsame Hn') as (n & Hn & Hs & _).
  rewrite Hs. eauto.
Qed.

Lemma get_node_dangling (w : World) l :
  heap w !! l = None -> get_node l w = Raise DanglingReference.
Proof. intros H. unfold get_node. now rewrite H. Qed.

Lemma backprop_step fuel l v (w : World) :
  backprop (S fuel) (Some l) v w =
  (Node.update l v ;; n ← get_node l; backprop fuel (parent n) (- v)%Z) w.
Proof. reflexivity. Qed.

(** Whenever [backprop] returns, it has changed visits and values only. *)
Lemma backprop_same_links fuel :
  forall (w w' : World) node v,
    backprop fuel node v w = Ok tt w' ->
    same_links (heap w) (heap w') /\
    rng w' = rng w /\ clock w' = clock w /\ queue w' = queue w.
Proof.
  induction fuel as [|fuel IH]; intros w w' node v; [discriminate|].
  destruct node as [l|].
  - rewrite backprop_step.
    destruct (heap w !! l) as [n|] eqn:Hn.
    + rewrite (bind_ok _ _ _ _ _ (update_run w l n v Hn)).
      assert (Hn1 : heap (set_heap (<[l := visited v n]> (heap w)) w) !! l
                    = Some (visited v n)).
      { simpl. apply list_lookup_insert_eq. eapply lookup_lt_Some; eauto. }
      rewrite (bind_ok _ _ _ _ _ (get_node_ok _ l _ Hn1)).
      intros Hrun. apply IH in Hrun as (Hsame & Hrng & Hclock & Hqueue).
      simpl in *. split; [|auto].
      eapply same_links_trans; [|exact Hsame].
      now apply (same_links_visited (heap w) l n v).
    + unfold Node.update. rewrite bind_run, bind_run.
      rewrite (get_node_dangling w l Hn). discriminate.
  - simpl. intros [= <-]. split; [apply same_links_refl|auto].
Qed.

End TreeFacts.

Section SearchRuns.
Context `{G : Isolation}.
Import MonteCarloUCTPlayer.

(** The contract of the game state that the search relies on: an action
    list without repetition, a legal action in every non-terminal state,
    and a rank that every move lowers (no play goes on for ever). *)
Variable rank : State -> nat.
Hypothesis actions_nodup : forall s, NoDup (actions s).
Hypothesis nonterminal_moves :
  forall s, terminal_test s = false -> actions s <> [].
Hypothesis moves_lower_rank :
  forall s a, terminal_test s = false -> a ∈ actions s ->
    (rank (result s a) < rank s)%nat.

Lemma fully_explored_run (w : World) node n :
  heap w !! node = Some n ->
  Node.fully_explored node w =
  Ok (length (child_actions n) =? length (actions (state n)))%nat w.
Proof.
  intros Hn. unfold Node.fully_explored.
  now rewrite (bind_ok _ _ _ _ _ (get_node_ok w node n Hn)).
Qed.

Lemma tree_policy_step fuel node (w : World) :
  tree_policy (S fuel) node w =
  (n ← get_node node;
   if terminal_test (state n) then mret node
   else
     full ← Node.fully_explored node;
     if negb full then expand node
     else node' ← best_child node 1%R; tree_policy fuel node') w.
Proof. reflexivity. Qed.

(** Selection returns: it descends along children, whose locations
    increase, and stops at a terminal node or at the child it has just
    created. *)
Lemma tree_policy_run bound fuel :
  forall (w : World) node n,
    tree_ok (heap w) -> ranked rank bound (heap w) ->
    heap w !! node = Some n ->
    (length (heap w) < fuel + node)%nat ->
    exists leaf h',
      tree_policy fuel node w = Ok leaf (set_heap h' w) /\
      tree_ok h' /\ ranked rank bound h' /\ grows (heap w) h' /\
      (length h' <= S (length (heap w)))%nat /\
      (leaf < length h')%nat /\
      (terminal_test (state n) = false ->
       exists n', h' !! node = Some n' /\ children n' <> []).
Proof using actions_nodup nonterminal_moves moves_lower_rank.
  induction fuel as [|fuel IH]; intros w node n Hok Hranked Hn Hfuel.
  { apply lookup_lt_Some in Hn. lia. }
  pose proof (lookup_lt_Some _ _ _ Hn) as Hlt.
  rewrite tree_policy_step.
  rewrite (bind_ok _ _ _ _ _ (get_node_ok w node n Hn)).
  destruct (terminal_test (state n)) eqn:Ht.
  { exists node, (heap w).
    split; [now destruct w|]. split; [assumption|]. split; [assumption|].
    split; [apply grows_refl|]. split; [lia|]. split; [assumption|].
    discriminate. }
  rewrite (bind_ok _ _ _ _ _ (fully_explored_run w node n Hn)).
  destruct Hok as [Hpar Hnodes].
  destruct (Hnodes node n Hn) as (Hlink & Hlen & Hnd & Hsub).
  destruct (length (child_actions n) =? length (actions (state n)))%nat eqn:E;
    simpl.
  - (* fully explored: descend *)
    apply Nat.eqb_eq in E.
    assert (Hne : children n <> []).
    { intros Hnil. apply (nonterminal_moves (state n) Ht).
      apply length_zero_iff_nil. rewrite <- E, Hlen, Hnil. reflexivity. }
    destruct (best_child_run w node n 1%R Hn Hne Hlink)
      as (i & c & Hbest & Hi & _).
    rewrite (bind_ok _ _ _ _ _ Hbest).
    destruct (Hlink c) as (cn & Hcn & Hp).
    { eapply list_elem_of_lookup_2; eauto. }
    pose proof (Hpar c cn node Hcn Hp) as Hlt'.
    destruct (IH w c cn (conj Hpar Hnodes) Hranked Hcn ltac:(lia))
      as (leaf & h' & Hrun & Hok' & Hr' & Hgrows & Hlen' & Hleaf & _).
    exists leaf, h'.
    split; [assumption|]. split; [assumption|]. split; [assumption|].
    split; [assumption|]. split; [assumption|]. split; [assumption|].
    intros _. destruct Hgrows as [_ Hgrows].
    destruct (Hgrows node n Hn) as (n' & Hn' & _ & _ & Hc). eauto.
  - (* not fully explored: expand *)
    apply Nat.eqb_neq in E.
    destruct (expand_run node n w Hn) as
      (pre & a & post & Hsplit & _ & Ha & Hrun & _); [|assumption|].
    { apply untried_exists; auto. }
    assert (Hin : a ∈ actions (state n)).
    { rewrite Hsplit. apply elem_of_app. right. left. }
    eexists _, _. split; [exact Hrun|].
    split; [now apply tree_ok_expand|].
    split.
    { apply ranked_expand; auto.
      specialize (moves_lower_rank (state n) a Ht Hin).
      specialize (Hranked node n Hn). lia. }
    split; [now apply grows_expand|].
    split; [rewrite length_insert, length_app; simpl; lia|].
    split; [rewrite length_insert, length_app; simpl; lia|].
    intros _. eexists. split.
    + apply list_lookup_insert_eq. rewrite length_app. lia.
    + simpl. intros Hnil. now apply app_eq_nil in Hnil as [_ ?].
Qed.

Lemma search_step fuel root st (w : World) :
  search (S fuel) root st w =
  (continue ← before_deadline;
   if continue : bool then
     leaf ← tree_policy fuel root;
     v ← rollout_policy fuel leaf (player st);
     backprop fuel (Some leaf) v ;;
     search fuel root st
   else mret tt) w.
Proof. reflexivity. Qed.

(** The search loop returns, keeps the store consistent, and from the
    first round on the root has a child. *)
Lemma search_run bound st fuel :
  forall (w : World) root rn,
    tree_ok (heap w) -> ranked rank bound (heap w) ->
    heap w !! root = Some rn ->
    terminal_test (state rn) = false ->
    (length (heap w) + 2 * clock w + bound + 4 <= fuel)%nat ->
    exists w',
      search fuel root st w = Ok tt w' /\
      tree_ok (heap w') /\ grows (heap w) (heap w') /\
      queue w' = queue w /\
      ((1 <= clock w)%nat ->
       exists rn', heap w' !! root = Some rn' /\ children rn' <> []).
Proof using actions_nodup nonterminal_moves moves_lower_rank.
  induction fuel as [|fuel IH]; intros w root rn Hok Hranked Hroot Ht Hfuel;
    [lia|].
  rewrite search_step. rewrite bind_run. unfold before_deadline.
  destruct (clock w) as [|c] eqn:Hclock.
  { exists w. split; [reflexivity|]. split; [assumption|].
    split; [apply grows_refl|]. split; [reflexivity|]. lia. }
  set (w1 := set_clock c w).
  (* selection and expansion *)
  destruct (tree_policy_run bound fuel w1 root rn Hok Hranked Hroot)
    as (leaf & h1 & Hsel & Hok1 & Hranked1 & Hgrows1 & Hlen1 & Hleaf & Hchild).
  { simpl. lia. }
  rewrite (bind_ok _ _ _ _ _ Hsel).
  simpl in Hlen1.
  (* rollout *)
  destruct (lookup_lt_is_Some_2 h1 leaf Hleaf) as [ln Hln].
  destruct (rollout_policy_run rank fuel leaf ln (player st)
              (set_heap h1 w1) moves_lower_rank nonterminal_moves Hln)
    as (final & g & _ & Hroll).
  { specialize (Hranked1 leaf ln Hln). lia. }
  rewrite (bind_ok _ _ _ _ _ Hroll).
  set (v := if _has_liberties final (player (state ln)) then (-1)%Z else 1%Z)
    in *.
  set (w3 := set_rng g (set_heap h1 w1)) in *.
  (* backpropagation *)
  destruct (backprop_run fuel w3 leaf v)
    as (h2 & Hback & _); [apply Hok1 | assumption | lia |].
  destruct (backprop_same_links _ _ _ _ _ Hback) as (Hsame & _).
  simpl in Hsame.
  rewrite (bind_ok _ _ _ _ _ Hback).
  (* the remaining rounds *)
  destruct (Hchild Ht) as (rn1 & Hrn1 & Hne1).
  destruct Hsame as [Hlen2 Hsame2].
  destruct (Hsame2 root rn1 Hrn1) as (rn2 & Hrn2 & Hs2 & Hc2 & _ & _).
  destruct (proj2 Hgrows1 root rn Hroot) as (rn1' & Hrn1' & Hs1 & _).
  assert (rn1' = rn1) as -> by congruence.
  destruct (IH (set_heap h2 w3) root rn2) as (w' & Hrun & Hok' & Hgrows' & Hq & _).
  { apply (same_links_tree_ok h1); [split|]; assumption. }
  { apply (same_links_ranked rank bound h1); [split|]; assumption. }
  { exact Hrn2. }
  { congruence. }
  { simpl. lia. }
  exists w'. split; [exact Hrun|]. split; [assumption|].
  split.
  { eapply grows_trans; [exact Hgrows1|].
    eapply grows_trans; [|exact Hgrows'].
    apply same_links_grows. split; assumption. }
  split; [rewrite Hq; reflexivity|].
  intros _. destruct Hgrows' as [_ Hgrows'].
  destruct (Hgrows' root rn2 Hrn2) as (rn' & Hrn' & _ & _ & Hc').
  exists rn'. split; [assumption|]. apply Hc'. congruence.
Qed.


End SearchRuns.

Section Selected.
Context `{G : Isolation}.
Import MonteCarloUCTPlayer.


End Selected.

(** ** More on the minimax search *)

Lemma max_from_ext_in {A K} (ltb : K -> K -> bool) (key key' : A -> K) l :
  forall best,
    key best = key' best ->
    (forall x, x ∈ l -> key x = key' x) ->
    max_from ltb key best l = max_from ltb key' best l.
Proof.
  induction l as [|x l IH]; intros best Hbest Hl; simpl; [reflexivity|].
  rewrite Hbest, (Hl x) by left.
  apply IH.
  - destruct (ltb _ _); [apply Hl; left|assumption].
  - intros y Hy. apply Hl. now right.
Qed.

Lemma py_max_ext_in {A K} (ltb : K -> K -> bool) (key key' : A -> K) l :
  (forall x, x ∈ l -> key x = key' x) ->
  py_max ltb key l = py_max ltb key' l.
Proof.
  intros Hl. destruct l as [|x l]; simpl; [reflexivity|]. f_equal.
  apply max_from_ext_in.
  - apply Hl. left.
  - intros y Hy. apply Hl. now right.
Qed.

Section MinimaxMore.
Context `{G : Isolation} (player_id : Z).
Import MinimaxAlphaBetaPlayer.

(** X1.  With any window [alpha < beta], what [min_value] and [max_value]
    return bounds the plain minimax value: a result at or below [alpha] is
    an upper bound of it, a result at or above [beta] a lower bound, and a
    result strictly between the two is the plain value itself. *)
Theorem alpha_beta_window_sound (state : State) (alpha beta : EZ) (depth : Z) :
  alpha < beta ->
  within_window (plain_min_value player_id state depth)
    (min_value player_id state alpha beta depth) alpha beta /\
  within_window (plain_max_value player_id state depth)
    (max_value player_id state alpha beta depth) alpha beta.
Proof. intros Hab. now apply alpha_beta_within. Qed.

(** X4.  The evaluation is zero-sum: what [score] gives one player is the
    opposite of what it gives the other. *)
Theorem score_zero_sum (state : State) :
  score (1 - player_id) state = (- score player_id state)%Z.
Proof.
  unfold score. replace (1 - (1 - player_id))%Z with player_id by lia. lia.
Qed.

(** X2.  On a non-empty action list the action returned is a legal action
    and a best one for plain minimax: no legal action has a child of
    greater unpruned value. *)
Theorem minimax_alpha_beta_optimal (state : State) (depth : Z) :
  actions state <> [] ->
  exists a,
    minimax_alpha_beta player_id state depth = Some a /\
    a ∈ actions state /\
    forall b, b ∈ actions state ->
      plain_min_value player_id (result state b) (depth - 1) <=
      plain_min_value player_id (result state a) (depth - 1).
Proof.
  intros Hne.
  destruct (py_max_first_argmax EZ.ltb EZ_ltb_irrefl EZ_ltb_trans
              EZ_ltb_negtrans
              (fun x => min_value player_id (result state x) NegInf PosInf
                          (depth - 1))
              (actions state) Hne) as (i & a & Hmax & Hi & Hbest & _).
  exists a. split; [exact Hmax|]. split.
  - eapply list_elem_of_lookup_2; eauto.
  - intros b Hb. apply list_elem_of_lookup_1 in Hb as [j Hj].
    specialize (Hbest j b Hj). rewrite !min_value_full_window in Hbest.
    now apply ltb_ge.
Qed.

(** *** Searching deeper than the game lasts *)

Variable rank : State -> nat.
Hypothesis nonterminal_moves :
  forall s, terminal_test s = false -> actions s <> [].
Hypothesis moves_lower_rank :
  forall s a, terminal_test s = false -> a ∈ actions s ->
    (rank (result s a) < rank s)%nat.

Lemma min_loop_ext (child child' : Action -> EZ -> EZ -> EZ) alpha acts :
  (forall a alpha beta, a ∈ acts -> child a alpha beta = child' a alpha beta) ->
  forall value beta,
    min_loop child alpha acts value beta = min_loop child' alpha acts value beta.
Proof.
  induction acts as [|a acts IH]; intros Hext value beta; simpl; [reflexivity|].
  rewrite (Hext a alpha beta) by left.
  destruct (_ <=? alpha); [reflexivity|].
  apply IH. intros b al be Hb. apply Hext. now right.
Qed.

Lemma max_loop_ext (child child' : Action -> EZ -> EZ -> EZ) beta acts :
  (forall a alpha beta, a ∈ acts -> child a alpha beta = child' a alpha beta) ->
  forall value alpha,
    max_loop child beta acts value alpha = max_loop child' beta acts value alpha.
Proof.
  induction acts as [|a acts IH]; intros Hext value alpha; simpl; [reflexivity|].
  rewrite (Hext a alpha beta) by left.
  destruct (_ >=? beta); [reflexivity|].
  apply IH. intros b al be Hb. apply Hext. now right.
Qed.

Lemma nonterminal_rank_pos s : terminal_test s = false -> (0 < rank s)%nat.
Proof using nonterminal_moves moves_lower_rank.
  intros Ht. pose proof (nonterminal_moves s Ht) as Hne.
  destruct (actions s) as [|a l] eqn:E; [congruence|].
  assert (Ha : a ∈ actions s) by (rewrite E; left).
  pose proof (moves_lower_rank s a Ht Ha). lia.
Qed.

Lemma deep_search_rec n :
  forall m s alpha beta,
    (rank s <= n)%nat -> (rank s <= m)%nat ->
    min_value_rec player_id n s alpha beta =
    min_value_rec player_id m s alpha beta /\
    max_value_rec player_id n s alpha beta =
    max_value_rec player_id m s alpha beta.
Proof using nonterminal_moves moves_lower_rank.
  induction n as [|n IH]; intros m s alpha beta Hn Hm;
    destruct (terminal_test s) eqn:Ht.
  - destruct m; simpl; rewrite Ht; auto.
  - apply nonterminal_rank_pos in Ht. lia.
  - destruct m; simpl; rewrite Ht; auto.
  - pose proof (nonterminal_rank_pos s Ht) as Hpos.
    destruct m as [|m]; [lia|]. simpl. rewrite Ht. split.
    + apply min_loop_ext. intros a al be Ha.
      pose proof (moves_lower_rank s a Ht Ha).
      apply IH; lia.
    + apply max_loop_ext. intros a al be Ha.
      pose proof (moves_lower_rank s a Ht Ha).
      apply IH; lia.
Qed.

(** X3.  Once the depth limit reaches the number of plies the game can still
    last ([rank] bounds it: every move lowers it and a non-terminal state
    has a move), searching deeper changes nothing: [min_value] and [max_value]
    return the same value at any two such depths, and from a non-terminal
    state [minimax_alpha_beta] returns the same action. *)
Theorem deep_search_stable (state : State) (d1 d2 : Z) :
  (Z.of_nat (rank state) <= d1)%Z ->
  (Z.of_nat (rank state) <= d2)%Z ->
  (forall alpha beta,
     min_value player_id state alpha beta d1 =
     min_value player_id state alpha beta d2 /\
     max_value player_id state alpha beta d1 =
     max_value player_id state alpha beta d2) /\
  (terminal_test state = false ->
   minimax_alpha_beta player_id state d1 =
   minimax_alpha_beta player_id state d2).
Proof using nonterminal_moves moves_lower_rank.
  intros H1 H2. split.
  - intros alpha beta. unfold min_value, max_value.
    apply deep_search_rec; lia.
  - intros Ht. unfold minimax_alpha_beta.
    apply py_max_ext_in. intros x Hx.
    pose proof (moves_lower_rank state x Ht Hx).
    unfold min_value. apply deep_search_rec; lia.
Qed.

End MinimaxMore.

(** ** Exceptions *)

Section Exceptions.
Context `{G : Isolation}.
Import MonteCarloUCTPlayer.

Lemma bind_raise {W A B} (m : M W A) (f : A -> M W B) (w : W) e :
  m w = Raise e -> (m ≫= f) w = Raise e.
Proof. intros H. now rewrite bind_run, H. Qed.

Lemma before_deadline_over (w : World) :
  clock w = O -> before_deadline w = Ok false w.
Proof. intros H. unfold before_deadline. now rewrite H. Qed.

Lemma before_deadline_left (w : World) c :
  clock w = S c -> before_deadline w = Ok true (set_clock c w).
Proof. intros H. unfold before_deadline. now rewrite H. Qed.

Lemma first_untried_none (possible tried : list Action) :
  (forall a, (a ∈ possible) -> (a ∈ tried)) ->
  first_untried possible tried = None.
Proof.
  induction possible as [|x l IH]; intros Hall; simpl; [reflexivity|].
  destruct (decide (x ∈ tried)) as [_|Hx].
  - apply IH. intros a Ha. apply Hall. now right.
  - exfalso. apply Hx, Hall. left.
Qed.

(** X7.  When every legal action of a node is already in its [child_actions]
    (in particular when its state has no legal action), [expand] raises
    [UnboundLocalError]: the loop ends without assigning [new_state]. *)
Theorem expand_nothing_untried (node : loc) (n : Node) (w : World) :
  heap w !! node = Some n ->
  (forall a, (a ∈ actions (state n)) -> (a ∈ child_actions n)) ->
  expand node w = Raise UnboundLocalError.
Proof.
  intros Hn Hall. unfold expand.
  rewrite (bind_ok _ _ _ _ _ (get_node_ok w node n Hn)).
  now rewrite (first_untried_none _ _ Hall).
Qed.

(** X8.  On a node whose [child_actions] are distinct legal actions, in a
    game that lists no action twice, [fully_explored] answers [False] exactly when a legal action is still
    untried, that is, exactly when [expand] can add a child. *)
Theorem fully_explored_iff_nothing_untried (node : loc) (n : Node) (w : World) :
  heap w !! node = Some n ->
  NoDup (actions (state n)) ->
  NoDup (child_actions n) ->
  (forall a, (a ∈ child_actions n) -> (a ∈ actions (state n))) ->
  exists full,
    Node.fully_explored node w = Ok full w /\
    (full = false <-> exists a, a ∈ actions (state n) /\ a ∉ child_actions n).
Proof.
  intros Hn Hnd Hnd' Hsub. eexists. split.
  - unfold Node.fully_explored.
    now rewrite (bind_ok _ _ _ _ _ (get_node_ok w node n Hn)).
  - rewrite Nat.eqb_neq. split.
    + intros Hlen. now apply untried_exists.
    + intros (a & Ha & Hna) Hlen. apply Hna.
      assert (Hperm : child_actions n ≡ₚ actions (state n)).
      { apply submseteq_length_Permutation; [|lia].
        now apply NoDup_submseteq. }
      now rewrite Hperm.
Qed.

Lemma best_child_no_children (node : loc) (n : Node) factor (w : World) :
  heap w !! node = Some n -> children n = [] ->
  best_child node factor w = Raise ValueError.
Proof.
  intros Hn Hnil. unfold best_child.
  rewrite (bind_ok _ _ _ _ _ (get_node_ok w node n Hn)). now rewrite Hnil.
Qed.

Lemma monte_carlo_uct_out_of_time (fuel : nat) (st : State) (w : World) :
  terminal_test st = false ->
  clock w = O ->
  (1 <= fuel)%nat ->
  monte_carlo_uct fuel st w = Raise ValueError.
Proof.
  intros Ht Hclock Hfuel. rewrite (monte_carlo_uct_nonterminal _ _ _ Ht).
  destruct fuel as [|fuel]; [lia|].
  set (w1 := set_heap _ w).
  assert (Hsearch : search (S fuel) (length (heap w)) st w1 = Ok tt w1).
  { rewrite search_step.
    now rewrite (bind_ok _ _ _ _ _ (before_deadline_over w1 Hclock)). }
  rewrite (bind_ok _ _ _ _ _ Hsearch). unfold final_move.
  apply bind_raise. apply (best_child_no_children _ (mkNode 1 0 st [] [] None)).
  - simpl. now rewrite lookup_app_r, Nat.sub_diag by lia.
  - reflexivity.
Qed.

(** X6.  When the deadline has passed at the first check, no round of search is
    run, the root has no child, and [monte_carlo_uct] on a non-terminal
    state raises the [ValueError] of [max] on an empty sequence instead of
    returning a move. *)
Theorem monte_carlo_uct_no_time (fuel : nat) (st : State) (w : World) :
  terminal_test st = false ->
  clock w = O ->
  (1 <= fuel)%nat ->
  monte_carlo_uct fuel st w = Raise ValueError.
Proof. apply monte_carlo_uct_out_of_time. Qed.

(** X5.  With an empty action list no call of [get_action] returns.  In the
    opening ([ply_count < 2]) both players raise the [IndexError] of
    [random.choice].  Later the minimax player raises the [ValueError] of
    [max] at depth 1, and the Monte Carlo player raises [IndexError] on a
    terminal state and [ValueError] on a non-terminal one, where the root
    counts as fully explored and has no child to select. *)
Theorem get_action_without_actions (player_id : Z) (fuel : nat) (st : State)
    (w : World) :
  actions st = [] ->
  ((ply_count st < 2)%Z ->
   MinimaxAlphaBetaPlayer.get_action player_id st w = Raise IndexError /\
   get_action fuel st w = Raise IndexError) /\
  ((2 <= ply_count st)%Z ->
   MinimaxAlphaBetaPlayer.get_action player_id st w = Raise ValueError /\
   (terminal_test st = true -> get_action fuel st w = Raise IndexError) /\
   (terminal_test st = false -> (2 <= fuel)%nat ->
    get_action fuel st w = Raise ValueError)).
Proof.
  intros Hnil. split.
  - intros Hply. apply Z.ltb_lt in Hply.
    unfold MinimaxAlphaBetaPlayer.get_action, get_action.
    rewrite Hply, Hnil. split; reflexivity.
  - intros Hply. apply Z.ltb_ge in Hply.
    unfold MinimaxAlphaBetaPlayer.get_action, get_action. rewrite Hply.
    split; [|split].
    + unfold MinimaxAlphaBetaPlayer.iterative_deepening. simpl.
      rewrite bind_run.
      unfold MinimaxAlphaBetaPlayer.minimax_alpha_beta. now rewrite Hnil.
    + intros Ht. apply bind_raise.
      rewrite (monte_carlo_uct_terminal _ _ _ Ht). now rewrite Hnil.
    + intros Ht Hfuel. apply bind_raise.
      destruct (clock w) as [|c] eqn:Hclock.
      { apply monte_carlo_uct_out_of_time; auto. lia. }
      rewrite (monte_carlo_uct_nonterminal _ _ _ Ht).
      apply bind_raise.
      destruct fuel as [|[|fuel]]; [lia|lia|].
      set (w1 := set_heap _ w).
      assert (Hroot : forall w', heap w' = heap w1 ->
                heap w' !! length (heap w) = Some (mkNode 1 0 st [] [] None)).
      { intros w' ->. simpl. now rewrite lookup_app_r, Nat.sub_diag by lia. }
      rewrite search_step.
      rewrite (bind_ok _ _ _ _ _ (before_deadline_left w1 c Hclock)).
      apply bind_raise. rewrite tree_policy_step.
      rewrite (bind_ok _ _ _ _ _
                 (get_node_ok (set_clock c w1) _ _ (Hroot _ eq_refl))).
      simpl. rewrite Ht.
      erewrite bind_ok.
      2:{ unfold Node.fully_explored.
          rewrite (bind_ok _ _ _ _ _
                 (get_node_ok (set_clock c w1) _ _ (Hroot _ eq_refl))).
          reflexivity. }
      simpl. rewrite Hnil. simpl. apply bind_raise.
      apply (best_child_no_children _ (mkNode 1 0 st [] [] None));
        [apply Hroot|]; reflexivity.
Qed.

End Exceptions.

(** ** Rounds of search *)

Section Rounds.
Context `{G : Isolation}.
Import MonteCarloUCTPlayer.

Lemma ancestor_up (h : list Node) x d c cn p :
  ancestor h x d = Some c -> h !! c = Some cn -> parent cn = Some p ->
  ancestor h x (S d) = Some p.
Proof.
  revert x. induction d as [|d IH]; intros x.
  - intros [= ->] Hc Hp. rewrite ancestor_S, Hc, Hp. reflexivity.
  - rewrite ancestor_S. destruct (h !! x) as [xn|] eqn:Hx; [|discriminate].
    destruct (parent xn) as [q|] eqn:Hq; [|discriminate].
    intros Hd Hc Hp. rewrite ancestor_S, Hx, Hq. now apply IH.
Qed.

(** Whether a node lies on the parent chain of another can be decided. *)
Lemma on_chain_dec (h : list Node) :
  parents_first h ->
  forall leaf l,
    (exists d, ancestor h leaf d = Some l) \/
    (forall d, ancestor h leaf d <> Some l).
Proof.
  intros Hpar leaf. induction leaf as [leaf IH] using lt_wf_ind. intros l.
  destruct (decide (l = leaf)) as [->|Hne]; [left; now exists O|].
  destruct (h !! leaf) as [n|] eqn:Hn.
  - destruct (parent n) as [p|] eqn:Hp.
    + destruct (IH p (Hpar leaf n p Hn Hp) l) as [[d Hd]|Hno].
      * left. exists (S d). now rewrite ancestor_S, Hn, Hp.
      * right. intros [|d]; [simpl; congruence|].
        rewrite ancestor_S, Hn, Hp. apply Hno.
    + right. intros [|d]; [simpl; congruence|].
      now rewrite ancestor_S, Hn, Hp.
  - right. intros [|d]; [simpl; congruence|]. now rewrite ancestor_S, Hn.
Qed.

(** What [expand] leaves of a node that was there before. *)
Lemma expanded_lookup (h : list Node) p pn a l n :
  h !! p = Some pn -> h !! l = Some n ->
  exists n', expanded h p pn a !! l = Some n' /\
    visits n' = visits n /\ value n' = value n /\ state n' = state n /\
    parent n' = parent n /\
    (l <> p -> n' = n) /\
    (l = p -> child_actions n' = child_actions pn ++ [a]).
Proof.
  intros Hp Hl. pose proof (lookup_lt_Some _ _ _ Hp) as Hlt.
  unfold expanded. destruct (decide (p = l)) as [<-|Hne].
  - eexists. split.
    + apply list_lookup_insert_eq. rewrite length_app. lia.
    + assert (n = pn) as -> by congruence. simpl.
      repeat split; auto. congruence.
  - exists n. rewrite list_lookup_insert_ne by assumption.
    split; [now apply lookup_app_l_Some|]. repeat split; auto. congruence.
Qed.

Lemma expanded_new (h : list Node) p pn a :
  h !! p = Some pn ->
  expanded h p pn a !! length h =
  Some (mkNode 1 0 (result (state pn) a) [] [] (Some p)).
Proof.
  intros Hp. pose proof (lookup_lt_Some _ _ _ Hp) as Hlt. unfold expanded.
  rewrite list_lookup_insert_ne by lia.
  now rewrite lookup_app_r, Nat.sub_diag by lia.
Qed.

Lemma expanded_length (h : list Node) p pn a :
  length (expanded h p pn a) = S (length h).
Proof. unfold expanded. rewrite length_insert, length_app. simpl. lia. Qed.

Lemma expanded_inv (h : list Node) p pn a l n' :
  h !! p = Some pn -> expanded h p pn a !! l = Some n' ->
  (l = length h /\ n' = mkNode 1 0 (result (state pn) a) [] [] (Some p)) \/
  (exists n, h !! l = Some n).
Proof.
  intros Hp Hl. destruct (decide (l = length h)) as [->|Hne].
  - left. split; [reflexivity|]. rewrite (expanded_new h p pn a Hp) in Hl.
    congruence.
  - right. apply lookup_lt_is_Some_2.
    apply lookup_lt_Some in Hl. rewrite expanded_length in Hl. lia.
Qed.

Lemma values_bounded_expanded (h : list Node) p pn a :
  h !! p = Some pn -> values_bounded h -> values_bounded (expanded h p pn a).
Proof.
  intros Hp Hb l n' Hl.
  destruct (expanded_inv h p pn a l n' Hp Hl) as [[-> ->]|[n Hn]].
  - simpl. lia.
  - destruct (expanded_lookup h p pn a l n Hp Hn) as (m & Hm & Hv & Hval & _).
    assert (m = n') as -> by congruence. rewrite Hv, Hval. eauto.
Qed.

(** The first untried action extends a prefix of the action list to the
    next prefix. *)
Lemma prefix_next (possible tried pre post : list Action) a :
  NoDup possible ->
  tried `prefix_of` possible ->
  possible = pre ++ a :: post ->
  (forall x, (x ∈ pre) -> (x ∈ tried)) -> a ∉ tried ->
  (tried ++ [a]) `prefix_of` possible.
Proof.
  intros Hnd [rest Hrest] Hsplit Hpre Ha.
  assert (tried = pre) as ->; [|exists post; rewrite Hsplit, <- app_assoc; reflexivity].
  subst possible. revert pre Hsplit Hpre Hnd.
  induction tried as [|t tried IH]; intros pre Hsplit Hpre Hnd.
  - destruct pre as [|x pre]; [reflexivity|].
    specialize (Hpre x ltac:(left)). inversion Hpre.
  - destruct pre as [|x pre].
    + simpl in Hsplit. injection Hsplit as -> _. exfalso. apply Ha. left.
    + simpl in Hsplit. injection Hsplit as -> Hsplit.
      f_equal. simpl in Hnd. apply list.NoDup_cons in Hnd as [Hx Hnd].
      apply IH; auto.
      * intros Hin. apply Ha. now right.
      * intros y Hy. specialize (Hpre y ltac:(now right)).
        apply elem_of_cons in Hpre as [->|Hin]; [|assumption].
        exfalso. apply Hx. rewrite Hsplit. apply elem_of_app. now left.
Qed.

Lemma in_action_order_expanded (h : list Node) p pn a pre post :
  h !! p = Some pn ->
  NoDup (actions (state pn)) ->
  actions (state pn) = pre ++ a :: post ->
  (forall x, (x ∈ pre) -> (x ∈ child_actions pn)) -> a ∉ child_actions pn ->
  in_action_order h -> in_action_order (expanded h p pn a).
Proof.
  intros Hp Hnd Hsplit Hpre Ha Hord l n' Hl.
  destruct (expanded_inv h p pn a l n' Hp Hl) as [[-> ->]|[n Hn]].
  - simpl. apply prefix_nil.
  - destruct (expanded_lookup h p pn a l n Hp Hn)
      as (m & Hm & _ & _ & Hs & _ & Hother & Hself).
    assert (m = n') as -> by congruence.
    destruct (decide (l = p)) as [->|Hne].
    + assert (n = pn) as -> by congruence.
      rewrite (Hself eq_refl), Hs.
      eapply prefix_next; eauto.
    + rewrite (Hother Hne). eauto.
Qed.

Lemma pow_minus_one_abs d : Z.abs ((-1) ^ Z.of_nat d) = 1%Z.
Proof.
  induction d as [|d IH]; [reflexivity|].
  rewrite Nat2Z.inj_succ, Z.pow_succ_r by lia. lia.
Qed.

(** The effect of [backprop] on each node of the store. *)
Lemma backprop_effect fuel (w : World) leaf v :
  parents_first (heap w) ->
  (leaf < length (heap w))%nat ->
  (leaf + 2 <= fuel)%nat ->
  exists h',
    backprop fuel (Some leaf) v w = Ok tt (set_heap h' w) /\
    length h' = length (heap w) /\
    forall l n, heap w !! l = Some n ->
      (exists d, ancestor (heap w) leaf d = Some l /\
                 h' !! l = Some (visited ((-1) ^ Z.of_nat d * v) n)) \/
      ((forall d, ancestor (heap w) leaf d <> Some l) /\ h' !! l = Some n).
Proof.
  intros Hpar Hleaf Hfuel.
  destruct (backprop_run fuel w leaf v Hpar Hleaf Hfuel)
    as (h' & Hrun & Hlen & Heff).
  exists h'. split; [assumption|]. split; [assumption|].
  intros l n Hn. destruct (Heff l n Hn) as [Hon Hoff].
  destruct (on_chain_dec (heap w) Hpar leaf l) as [[d Hd]|Hno]; eauto.
Qed.

Lemma values_bounded_backprop (h h' : list Node) leaf v :
  (Z.abs v <= 1)%Z ->
  length h' = length h ->
  (forall l n, h !! l = Some n ->
     (exists d, ancestor h leaf d = Some l /\
                h' !! l = Some (visited ((-1) ^ Z.of_nat d * v) n)) \/
     ((forall d, ancestor h leaf d <> Some l) /\ h' !! l = Some n)) ->
  values_bounded h -> values_bounded h'.
Proof.
  intros Hv Hlen Heff Hb l n' Hn'.
  destruct (lookup_lt_is_Some_2 h l) as [n Hn].
  { rewrite <- Hlen. eapply lookup_lt_Some; eauto. }
  specialize (Hb l n Hn).
  destruct (Heff l n Hn) as [(d & _ & Hl)|[_ Hl]].
  - assert (n' = visited ((-1) ^ Z.of_nat d * v) n) as -> by congruence.
    simpl. pose proof (pow_minus_one_abs d).
    assert (Z.abs ((-1) ^ Z.of_nat d * v) <= 1)%Z by (rewrite Z.abs_mul; lia).
    lia.
  - assert (n' = n) as -> by congruence. assumption.
Qed.

Lemma in_action_order_same_links (h h' : list Node) :
  same_links h h' -> in_action_order h -> in_action_order h'.
Proof.
  intros Hsame Hord l n' Hn'.
  destruct (same_links_inv _ _ _ _ Hsame Hn') as (n & Hn & Hs & _ & Ha & _).
  rewrite Hs, Ha. eauto.
Qed.

End Rounds.

Section RoundsRun.
Context `{G : Isolation}.
Import MonteCarloUCTPlayer.

Variable rank : State -> nat.
Hypothesis actions_nodup : forall s, NoDup (actions s).
Hypothesis nonterminal_moves :
  forall s, terminal_test s = false -> actions s <> [].
Hypothesis moves_lower_rank :
  forall s a, terminal_test s = false -> a ∈ actions s ->
    (rank (result s a) < rank s)%nat.

(** Selection ends at a terminal node of the tree, leaving the store as it
    is, or at the child it has created for the first untried action of a
    non-terminal node; the node returned is below the node it started
    from. *)
Lemma tree_policy_leaf fuel :
  forall (w : World) node n,
    tree_ok (heap w) ->
    heap w !! node = Some n ->
    (length (heap w) < fuel + node)%nat ->
    exists leaf h',
      tree_policy fuel node w = Ok leaf (set_heap h' w) /\
      (exists d, ancestor h' leaf d = Some node) /\
      ((h' = heap w /\
        exists ln, heap w !! leaf = Some ln /\ terminal_test (state ln) = true) \/
       (exists p pn a pre post,
          heap w !! p = Some pn /\ terminal_test (state pn) = false /\
          actions (state pn) = pre ++ a :: post /\
          (forall x, (x ∈ pre) -> (x ∈ child_actions pn)) /\
          (a ∉ child_actions pn) /\
          leaf = length (heap w) /\ h' = expanded (heap w) p pn a)).
Proof using actions_nodup nonterminal_moves.
  induction fuel as [|fuel IH]; intros w node n Hok Hn Hfuel.
  { apply lookup_lt_Some in Hn. lia. }
  pose proof (lookup_lt_Some _ _ _ Hn) as Hlt.
  rewrite tree_policy_step.
  rewrite (bind_ok _ _ _ _ _ (get_node_ok w node n Hn)).
  destruct (terminal_test (state n)) eqn:Ht.
  { exists node, (heap w). split; [now destruct w|].
    split; [now exists O|]. left. eauto. }
  rewrite (bind_ok _ _ _ _ _ (fully_explored_run w node n Hn)).
  destruct Hok as [Hpar Hnodes].
  destruct (Hnodes node n Hn) as (Hlink & Hlen & Hnd & Hsub).
  destruct (length (child_actions n) =? length (actions (state n)))%nat eqn:E;
    simpl.
  - apply Nat.eqb_eq in E.
    assert (Hne : children n <> []).
    { intros Hnil. apply (nonterminal_moves (state n) Ht).
      apply length_zero_iff_nil. rewrite <- E, Hlen, Hnil. reflexivity. }
    destruct (best_child_run w node n 1%R Hn Hne Hlink)
      as (i & c & Hbest & Hi & _).
    rewrite (bind_ok _ _ _ _ _ Hbest).
    destruct (Hlink c) as (cn & Hcn & Hp).
    { eapply list_elem_of_lookup_2; eauto. }
    pose proof (Hpar c cn node Hcn Hp) as Hlt'.
    destruct (IH w c cn (conj Hpar Hnodes) Hcn ltac:(lia))
      as (leaf & h' & Hrun & [d Hd] & Hform).
    exists leaf, h'. split; [assumption|]. split; [|assumption].
    exists (S d). destruct Hform as [[-> _]|(p & pn & a & pre & post & Hpn & _ & _ & _ & _ & _ & ->)].
    + eapply ancestor_up; eauto.
    + destruct (expanded_lookup (heap w) p pn a c cn Hpn Hcn)
        as (cn' & Hcn' & _ & _ & _ & Hp' & _).
      eapply ancestor_up; eauto. congruence.
  - apply Nat.eqb_neq in E.
    destruct (expand_run node n w Hn) as
      (pre & a & post & Hsplit & Hpre & Ha & Hrun & _); [|assumption|].
    { apply untried_exists; auto. }
    exists (length (heap w)), (expanded (heap w) node n a).
    split; [exact Hrun|]. split.
    + exists 1%nat. rewrite ancestor_S, (expanded_new _ _ _ _ Hn). reflexivity.
    + right. exists node, n, a, pre, post. repeat split; auto.
Qed.

(** The search loop round by round: the root is on the parent chain of
    every leaf that selection returns, so that [backprop] visits it once in
    each round. *)
Lemma search_rounds bound st fuel :
  forall (w : World) root rn,
    tree_ok (heap w) -> ranked rank bound (heap w) ->
    values_bounded (heap w) -> in_action_order (heap w) ->
    heap w !! root = Some rn ->
    terminal_test (state rn) = false ->
    (length (heap w) + 2 * clock w + bound + 4 <= fuel)%nat ->
    exists w' rn',
      search fuel root st w = Ok tt w' /\
      tree_ok (heap w') /\ values_bounded (heap w') /\
      in_action_order (heap w') /\
      (length (heap w') <= length (heap w) + clock w)%nat /\
      clock w' = O /\ queue w' = queue w /\
      heap w' !! root = Some rn' /\
      state rn' = state rn /\
      Z.pos (visits rn') = (Z.pos (visits rn) + Z.of_nat (clock w))%Z.
Proof using actions_nodup nonterminal_moves moves_lower_rank.
  induction fuel as [|fuel IH];
    intros w root rn Hok Hranked Hbounded Hord Hroot Ht Hfuel; [lia|].
  rewrite search_step.
  destruct (clock w) as [|c] eqn:Hclock.
  { rewrite (bind_ok _ _ _ _ _ (before_deadline_over w Hclock)).
    exists w, rn. split; [reflexivity|].
    split; [assumption|]. split; [assumption|]. split; [assumption|].
    split; [lia|]. split; [assumption|]. split; [reflexivity|].
    split; [assumption|]. split; [reflexivity|]. simpl. lia. }
  rewrite (bind_ok _ _ _ _ _ (before_deadline_left w c Hclock)).
  set (w1 := set_clock c w).
  (* selection and expansion *)
  destruct (tree_policy_leaf fuel w1 root rn Hok Hroot)
    as (leaf & h1 & Hsel & [d Hd] & Hform).
  { simpl. lia. }
  rewrite (bind_ok _ _ _ _ _ Hsel).
  assert (H1 : tree_ok h1 /\ ranked rank bound h1 /\ values_bounded h1 /\
               in_action_order h1 /\
               (length h1 <= S (length (heap w)))%nat /\
               (leaf < length h1)%nat /\
               exists rn1, h1 !! root = Some rn1 /\ state rn1 = state rn /\
                           visits rn1 = visits rn).
  { destruct Hform as [[-> (ln & Hln & _)]
      |(p & pn & a & pre & post & Hpn & Htp & Hsplit & Hpre & Ha & -> & ->)].
    - split; [assumption|]. split; [assumption|]. split; [assumption|].
      split; [assumption|]. split; [simpl; lia|].
      split; [eapply lookup_lt_Some; eauto|]. exists rn. auto.
    - assert (Hin : a ∈ actions (state pn)).
      { rewrite Hsplit. apply elem_of_app. right. left. }
      split; [now apply tree_ok_expand|].
      split.
      { apply ranked_expand; auto.
        pose proof (moves_lower_rank (state pn) a Htp Hin).
        pose proof (Hranked p pn Hpn). simpl in *. lia. }
      split; [now apply values_bounded_expanded|].
      split; [eapply in_action_order_expanded; eauto|].
      split; [rewrite expanded_length; simpl; lia|].
      split; [rewrite expanded_length; simpl; lia|].
      destruct (expanded_lookup (heap w) p pn a root rn Hpn Hroot)
        as (rn1 & Hrn1 & Hv & _ & Hs & _).
      exists rn1. auto. }
  destruct H1 as (Hok1 & Hranked1 & Hbounded1 & Hord1 & Hlen1 & Hleaf & rn1 &
                  Hrn1 & Hs1 & Hv1).
  (* rollout *)
  destruct (lookup_lt_is_Some_2 h1 leaf Hleaf) as [ln Hln].
  destruct (rollout_policy_run rank fuel leaf ln (player st)
              (set_heap h1 w1) moves_lower_rank nonterminal_moves Hln)
    as (final & g & _ & Hroll).
  { pose proof (Hranked1 leaf ln Hln). lia. }
  rewrite (bind_ok _ _ _ _ _ Hroll).
  set (v := if _has_liberties final (player (state ln)) then (-1)%Z else 1%Z)
    in *.
  assert (Hv : (Z.abs v <= 1)%Z) by (unfold v; destruct (_has_liberties _ _); lia).
  set (w3 := set_rng g (set_heap h1 w1)) in *.
  (* backpropagation *)
  destruct (backprop_effect fuel w3 leaf v)
    as (h2 & Hback & Hlen2 & Heff); [apply Hok1 | assumption | simpl in *; lia |].
  destruct (backprop_same_links _ _ _ _ _ Hback) as (Hsame & _).
  simpl in Hsame, Hlen2, Heff.
  rewrite (bind_ok _ _ _ _ _ Hback).
  assert (Hrn2 : h2 !! root = Some (visited ((-1) ^ Z.of_nat d * v) rn1)).
  { destruct (Heff root rn1 Hrn1) as [(d' & Hd' & Hl)|[Hno _]].
    - assert (d' = d) as ->; [|assumption].
      clear -Hd Hd' Hok1. destruct Hok1 as [Hpar _].
      revert leaf Hd Hd'. revert d'.
      induction d as [|d IHd]; intros d' leaf Hd Hd'.
      + injection Hd as ->. destruct d'; [reflexivity|].
        apply ancestor_le in Hd' as [_ Hlt]; [lia|assumption].
      + destruct d' as [|d'].
        * injection Hd' as ->.
          apply ancestor_le in Hd as [_ Hlt]; [lia|assumption].
        * f_equal. rewrite ancestor_S in Hd, Hd'.
          destruct (h1 !! leaf) as [m|]; [|discriminate].
          destruct (parent m) as [q|]; [|discriminate]. eauto.
    - exfalso. exact (Hno d Hd). }
  (* the remaining rounds *)
  destruct (IH (set_heap h2 w3) root (visited ((-1) ^ Z.of_nat d * v) rn1))
    as (w' & rn' & Hrun & Hok' & Hbounded' & Hord' & Hlen' & Hclock' & Hq &
        Hrn' & Hs' & Hv').
  { now apply (same_links_tree_ok h1). }
  { now apply (same_links_ranked rank bound h1). }
  { now apply (values_bounded_backprop h1 h2 leaf v). }
  { now apply (in_action_order_same_links h1). }
  { exact Hrn2. }
  { simpl. congruence. }
  { simpl in *. lia. }
  exists w', rn'. split; [exact Hrun|].
  split; [assumption|]. split; [assumption|]. split; [assumption|].
  split; [simpl in *; lia|]. split; [assumption|].
  split; [rewrite Hq; reflexivity|]. split; [assumption|].
  split; [simpl in Hs'; congruence|].
  rewrite Hv'. simpl. rewrite Hv1. lia.
Qed.

End RoundsRun.

Section SearchOutcome.
Context `{G : Isolation}.
Import MonteCarloUCTPlayer.

Lemma values_bounded_root (h : list Node) (st : State) :
  values_bounded h -> values_bounded (h ++ [mkNode 1 0 st [] [] None]).
Proof.
  intros Hb l n Hn. apply lookup_app_Some in Hn as [Hn|[_ Hn]]; [eauto|].
  apply list_lookup_singleton_Some in Hn as [_ <-]. simpl. lia.
Qed.

Lemma in_action_order_root (h : list Node) (st : State) :
  in_action_order h -> in_action_order (h ++ [mkNode 1 0 st [] [] None]).
Proof.
  intros Hb l n Hn. apply lookup_app_Some in Hn as [Hn|[_ Hn]]; [eauto|].
  apply list_lookup_singleton_Some in Hn as [_ <-]. simpl. apply prefix_nil.
Qed.

Lemma average_within (h : list Node) l :
  values_bounded h -> (-1 <= average h l <= 1)%R.
Proof.
  intros Hb. unfold average. destruct (h !! l) as [n|] eqn:Hn; [|lra].
  specialize (Hb l n Hn).
  change (IPR (visits n)) with (IZR (Z.pos (visits n))).
  assert (Hpos : (0 < IZR (Z.pos (visits n)))%R) by (apply IZR_lt; lia).
  assert (Hle : (IZR (value n) <= IZR (Z.pos (visits n)))%R)
    by (apply IZR_le; lia).
  assert (Hge : (- IZR (Z.pos (visits n)) <= IZR (value n))%R).
  { rewrite <- opp_IZR. apply IZR_le. lia. }
  unfold Rdiv.
  pose proof (Rinv_0_lt_compat _ Hpos) as Hinv.
  pose proof (Rinv_r (IZR (Z.pos (visits n))) ltac:(lra)) as Hone.
  split; nra.
Qed.

(** The whole of [monte_carlo_uct] on a non-terminal root with time for at
    least one round. *)
Lemma monte_carlo_uct_rounds (rank : State -> nat) bound fuel st (w0 : World) :
  game_contract rank ->
  store_ok (heap w0) -> ranked rank bound (heap w0) ->
  (rank st <= bound)%nat ->
  terminal_test st = false ->
  (1 <= clock w0)%nat ->
  (length (heap w0) + 2 * clock w0 + bound + 5 <= fuel)%nat ->
  exists a w rn i,
    monte_carlo_uct fuel st w0 = Ok a w /\
    store_ok (heap w) /\
    (length (heap w) <= length (heap w0) + 1 + clock w0)%nat /\
    clock w = O /\ queue w = queue w0 /\
    heap w !! length (heap w0) = Some rn /\
    state rn = st /\
    Z.pos (visits rn) = (1 + Z.of_nat (clock w0))%Z /\
    child_actions rn !! i = Some a /\
    actions st !! i = Some a.
Proof.
  intros (Hnodup & Hmoves & Hrank) (Hok & Hbounded & Hord) Hranked Hst Ht
    Hclock Hfuel.
  set (root := length (heap w0)).
  set (w1 := set_heap (heap w0 ++ [mkNode 1 0 st [] [] None]) w0).
  assert (Hroot : heap w1 !! root = Some (mkNode 1 0 st [] [] None)).
  { simpl. unfold root. now rewrite lookup_app_r, Nat.sub_diag by lia. }
  assert (Hfuel1 : (length (heap w1) + 2 * clock w1 + bound + 4 <= fuel)%nat).
  { simpl. rewrite length_app. simpl. lia. }
  destruct (search_rounds rank Hnodup Hmoves Hrank bound st fuel w1 root _
              (tree_ok_root _ st Hok) (ranked_root rank bound _ st Hranked Hst)
              (values_bounded_root _ st Hbounded)
              (in_action_order_root _ st Hord) Hroot Ht Hfuel1)
    as (w & rn & Hsearch & Hokw & Hbw & Hordw & Hlen & Hclockw & Hq & Hrn &
        Hs & Hv).
  destruct (search_run rank Hnodup Hmoves Hrank bound st fuel w1 root _
              (tree_ok_root _ st Hok) (ranked_root rank bound _ st Hranked Hst)
              Hroot Ht Hfuel1)
    as (w' & Hsearch' & _ & _ & _ & Hchild).
  assert (w' = w) as -> by congruence.
  destruct (Hchild Hclock) as (rn' & Hrn' & Hne).
  assert (rn' = rn) as -> by congruence.
  destruct (proj2 Hokw root rn Hrn) as (Hlink & Hlenc & _ & Hsub).
  destruct (final_move_run w root rn Hrn Hne Hlink Hlenc)
    as (i & c & a & _ & _ & Ha & Hfinal).
  exists a, w, rn, i.
  split.
  { rewrite (monte_carlo_uct_nonterminal _ _ _ Ht). fold root w1.
    now rewrite (bind_ok _ _ _ _ _ Hsearch). }
  split; [split; [assumption|split; assumption]|].
  split; [simpl in Hlen; rewrite length_app in Hlen; simpl in Hlen; lia|].
  split; [assumption|]. split; [assumption|]. split; [assumption|].
  split; [assumption|]. split; [simpl in Hv; lia|]. split; [assumption|].
  destruct (Hordw root rn Hrn) as [rest Hrest]. simpl in Hs.
  rewrite <- Hs, Hrest. now apply lookup_app_l_Some.
Qed.

(** X9.  On a consistent store, [tree_policy] returns.  It ends at a
    terminal node of the tree and leaves the store as it is, or at the child
    it has created for the first untried action of a non-terminal node, the
    store being otherwise unchanged; in both cases the node returned lies
    on or below the node selection started from. *)
Theorem tree_policy_returns_leaf (rank : State -> nat) (fuel : nat)
    (w : World) (node : loc) (n : Node) :
  game_contract rank ->
  tree_ok (heap w) ->
  heap w !! node = Some n ->
  (length (heap w) < fuel + node)%nat ->
  exists leaf h',
    tree_policy fuel node w = Ok leaf (set_heap h' w) /\
    (exists d, ancestor h' leaf d = Some node) /\
    ((h' = heap w /\
      exists ln, heap w !! leaf = Some ln /\ terminal_test (state ln) = true) \/
     (exists p pn a pre post,
        heap w !! p = Some pn /\ terminal_test (state pn) = false /\
        actions (state pn) = pre ++ a :: post /\
        (forall x, (x ∈ pre) -> (x ∈ child_actions pn)) /\
        (a ∉ child_actions pn) /\
        leaf = length (heap w) /\ h' = expanded (heap w) p pn a)).
Proof.
  intros (Hnodup & Hmoves & _). now apply tree_policy_leaf.
Qed.

(** X10.  On a non-terminal root, [monte_carlo_uct] runs one round of
    search for each deadline check that succeeds and visits the root once in
    every round: when it returns, the root has been visited once more than
    there were rounds, at most one node per round has been created, and the
    time is used up. *)
Theorem search_visits_root_once_per_round (rank : State -> nat) bound fuel st
    (w0 : World) :
  game_contract rank ->
  store_ok (heap w0) -> ranked rank bound (heap w0) ->
  (rank st <= bound)%nat ->
  terminal_test st = false ->
  (1 <= clock w0)%nat ->
  (length (heap w0) + 2 * clock w0 + bound + 5 <= fuel)%nat ->
  exists a w rn,
    monte_carlo_uct fuel st w0 = Ok a w /\
    heap w !! length (heap w0) = Some rn /\
    state rn = st /\
    Z.pos (visits rn) = (1 + Z.of_nat (clock w0))%Z /\
    (length (heap w) <= length (heap w0) + 1 + clock w0)%nat /\
    clock w = O.
Proof.
  intros Hg Hs Hr Hst Ht Hc Hf.
  destruct (monte_carlo_uct_rounds rank bound fuel st w0 Hg Hs Hr Hst Ht Hc Hf)
    as (a & w & rn & i & Hrun & _ & Hlen & Hclock & _ & Hrn & Hstate & Hv & _).
  exists a, w, rn. auto 10.
Qed.

(** X11.  The rewards are -1 and +1, one per visit: in the store that
    [monte_carlo_uct] leaves, the value of every node is at most its number
    of visits less one in absolute value, and so every average
    [value / visits] that [exploit] computes lies between -1 and 1. *)
Theorem search_keeps_values_within_visits (rank : State -> nat) bound fuel st
    (w0 : World) :
  game_contract rank ->
  store_ok (heap w0) -> ranked rank bound (heap w0) ->
  (rank st <= bound)%nat ->
  terminal_test st = false ->
  (1 <= clock w0)%nat ->
  (length (heap w0) + 2 * clock w0 + bound + 5 <= fuel)%nat ->
  exists a w,
    monte_carlo_uct fuel st w0 = Ok a w /\
    forall l n, heap w !! l = Some n ->
      (Z.abs (value n) <= Z.pos (visits n) - 1)%Z /\
      (-1 <= IZR (value n) / IPR (visits n) <= 1)%R.
Proof.
  intros Hg Hs Hr Hst Ht Hc Hf.
  destruct (monte_carlo_uct_rounds rank bound fuel st w0 Hg Hs Hr Hst Ht Hc Hf)
    as (a & w & rn & i & Hrun & (_ & Hb & _) & _).
  exists a, w. split; [assumption|]. intros l n Hn.
  split; [now apply (Hb l n)|].
  pose proof (average_within (heap w) l Hb) as Havg.
  unfold average in Havg. now rewrite Hn in Havg.
Qed.

(** X12.  Children are created in the order of [state.actions()]: in the
    store that [monte_carlo_uct] leaves, the [child_actions] of every node
    are the first legal actions of its state, as many as it has children;
    the action returned is the legal action at the position of the selected
    root child. *)
Theorem search_creates_children_in_action_order (rank : State -> nat) bound
    fuel st (w0 : World) :
  game_contract rank ->
  store_ok (heap w0) -> ranked rank bound (heap w0) ->
  (rank st <= bound)%nat ->
  terminal_test st = false ->
  (1 <= clock w0)%nat ->
  (length (heap w0) + 2 * clock w0 + bound + 5 <= fuel)%nat ->
  exists a w rn i,
    monte_carlo_uct fuel st w0 = Ok a w /\
    heap w !! length (heap w0) = Some rn /\
    child_actions rn !! i = Some a /\
    actions st !! i = Some a /\
    (forall l n, heap w !! l = Some n ->
       child_actions n = take (length (children n)) (actions (state n))) /\
    store_ok (heap w).
Proof.
  intros Hg Hs Hr Hst Ht Hc Hf.
  destruct (monte_carlo_uct_rounds rank bound fuel st w0 Hg Hs Hr Hst Ht Hc Hf)
    as (a & w & rn & i & Hrun & Hok & _ & _ & _ & Hrn & _ & _ & Hi & Hi').
  exists a, w, rn, i.
  split; [assumption|]. split; [assumption|]. split; [assumption|].
  split; [assumption|]. split; [|assumption].
  intros l n Hn. destruct Hok as ((_ & Hnodes) & _ & Hord).
  destruct (Hnodes l n Hn) as (_ & Hlen & _).
  destruct (Hord l n Hn) as [rest Hrest].
  rewrite Hrest, <- Hlen, take_app_length. reflexivity.
Qed.

(** X13.  On a non-terminal state with [ply_count >= 2] and time for at
    least one round, [MonteCarloUCTPlayer.get_action] returns after putting
    exactly one item into the queue, a legal action of the state. *)
Theorem monte_carlo_get_action_puts_one_legal_action (rank : State -> nat)
    bound fuel st (w0 : World) :
  game_contract rank ->
  store_ok (heap w0) -> ranked rank bound (heap w0) ->
  (rank st <= bound)%nat ->
  terminal_test st = false ->
  (2 <= ply_count st)%Z ->
  (1 <= clock w0)%nat ->
  (length (heap w0) + 2 * clock w0 + bound + 5 <= fuel)%nat ->
  exists a w,
    get_action fuel st w0 = Ok tt w /\
    queue w = queue w0 ++ [a] /\
    a ∈ actions st.
Proof.
  intros Hg Hs Hr Hst Ht Hply Hc Hf.
  destruct (monte_carlo_uct_rounds rank bound fuel st w0 Hg Hs Hr Hst Ht Hc Hf)
    as (a & w & rn & i & Hrun & _ & _ & _ & Hq & _ & _ & _ & _ & Hi).
  exists a, (set_queue (queue w ++ [a]) w).
  split; [|split].
  - unfold get_action. apply Z.ltb_ge in Hply. rewrite Hply.
    now rewrite (bind_ok _ _ _ _ _ Hrun).
  - simpl. now rewrite Hq.
  - eapply list_elem_of_lookup_2; eauto.
Qed.

End SearchOutcome.

(** ** The exploration term *)

Section Exploration.
Context `{G : Isolation}.
Import MonteCarloUCTPlayer.

Lemma ln_nonneg x : (1 <= x)%R -> (0 <= ln x)%R.
Proof.
  intros [Hlt|<-]; [|rewrite ln_1; lra].
  rewrite <- ln_1. left. apply ln_increasing; lra.
Qed.

(** X14.  [explore] on a node that has no parent, such as the root, raises
    [AttributeError].  On a node with a parent it returns, and no math
    domain error can occur: the logarithm is taken of a number that is at
    least 1 and the square root of a number that is not negative; the
    exploration term is not negative. *)
Theorem explore_domain (w : World) (c : loc) (cn : Node) :
  heap w !! c = Some cn ->
  (parent cn = None -> explore c w = Raise AttributeError) /\
  (forall p pn, parent cn = Some p -> heap w !! p = Some pn ->
     (1 <= IPR (visits pn))%R /\
     (0 <= 2 * ln (IPR (visits pn)) / IPR (visits cn))%R /\
     explore c w =
       Ok (sqrt (2 * ln (IPR (visits pn)) / IPR (visits cn)))%R w /\
     (0 <= sqrt (2 * ln (IPR (visits pn)) / IPR (visits cn)))%R).
Proof.
  intros Hc. split.
  - intros Hp. unfold explore.
    rewrite (bind_ok _ _ _ _ _ (get_node_ok w c cn Hc)). now rewrite Hp.
  - intros p pn Hp Hpn.
    pose proof (IPR_ge_1 (visits pn)) as Hge.
    split; [assumption|]. split.
    + apply Rle_mult_inv_pos; [|apply IPR_gt_0].
      pose proof (ln_nonneg _ Hge). lra.
    + split; [now apply (explore_run w p pn c cn)|apply sqrt_pos].
Qed.

End Exploration.

(** ** The players on the take-away game *)

Section OnTakeAway.
Import TakeAway.

Lemma pile_moves (s : Piles) :
  terminal_test s = false -> actions s <> [].
Proof.
  destruct s as [p0 p1 k]. simpl.
  unfold pile_terminal, pile_has_liberties, pile_actions, pile_of, pile_player.
  simpl. destruct (Nat.even k);
    destruct p0 as [|[|p0]], p1 as [|[|p1]]; simpl; congruence.
Qed.

Lemma pile_rank (s : Piles) (a : nat) :
  terminal_test s = false -> a ∈ actions s ->
  (pile0 (result s a) + pile1 (result s a) < pile0 s + pile1 s)%nat.
Proof.
  destruct s as [p0 p1 k]. simpl.
  unfold pile_terminal, pile_has_liberties, pile_actions, pile_result,
    pile_of, pile_player.
  simpl. destruct (Nat.even k);
    destruct p0 as [|[|p0]], p1 as [|[|p1]]; simpl; try discriminate;
    intros _ Hin;
    repeat (apply elem_of_cons in Hin as [->|Hin]; [simpl; lia|]);
    inversion Hin.
Qed.

(** The pruned and the plain search, run to depth 5. *)
Example alpha_beta_on_piles :
  MinimaxAlphaBetaPlayer.minimax_alpha_beta 0 (mkPiles 3 2 2) 5 = Some 1%nat /\
  MinimaxAlphaBetaPlayer.plain_minimax 0 (mkPiles 3 2 2) 5 = Some 1%nat /\
  map (fun a => MinimaxAlphaBetaPlayer.min_value 0
                  (result (mkPiles 3 2 2) a) NegInf PosInf 4)
      (actions (mkPiles 3 2 2)) = [PosInf; NegInf].
Proof. repeat split; reflexivity. Qed.

Lemma minimax_alpha_beta_first_argmax_witness :
  exists i a,
    MinimaxAlphaBetaPlayer.minimax_alpha_beta 0 (mkPiles 3 2 2) 5 = Some a /\
    first_argmax EZ.ltb
      (fun x => MinimaxAlphaBetaPlayer.min_value 0
                  (result (mkPiles 3 2 2) x) NegInf PosInf (5 - 1))
      (actions (mkPiles 3 2 2)) i a.
Proof.
  apply (minimax_alpha_beta_first_argmax (G := game) 0 (mkPiles 3 2 2) 5).
  discriminate.
Defined.

Lemma iterative_deepening_puts_each_depth_witness :
  exists acts,
    Forall2 (fun depth a =>
               MinimaxAlphaBetaPlayer.minimax_alpha_beta 0 (mkPiles 3 2 2) depth
               = Some a /\ a ∈ actions (mkPiles 3 2 2))
      [1; 2; 3; 4; 5]%Z acts /\
    MinimaxAlphaBetaPlayer.get_action 0 (mkPiles 3 2 2) (mkWorld [] 0 [] []) =
    Ok tt (set_queue ([] ++ acts) (mkWorld [] 0 [] [])) /\
    forall k, (1 <= k <= 5)%nat ->
      MinimaxAlphaBetaPlayer.iterative_deepening 0 (mkPiles 3 2 2)
        (take k [1; 2; 3; 4; 5]%Z) (mkWorld [] 0 [] []) =
        Ok tt (set_queue ([] ++ take k acts) (mkWorld [] 0 [] [])) /\
      exists a, list.last ([] ++ take k acts) = Some a /\
                a ∈ actions (mkPiles 3 2 2).
Proof.
  apply (iterative_deepening_puts_each_depth (G := game) 0 (mkPiles 3 2 2)
           (mkWorld [] 0 [] []));
    [exact pile_moves | reflexivity | simpl; lia].
Defined.


(** C2 as stated fails: from the node where player 0 is to move with piles
    2 and 1, the playout that always takes one token ends with piles 1 and
    0; player 0, who was to move at the node, has liberties there, and the
    reward is -1, not +1. *)
Lemma rollout_policy_reward_counterexample :
  let s := mkPiles 2 1 0 in
  let final := mkPiles 1 0 2 in
  let w := mkWorld [] 0 [root_node s] [] in
  played s [] final [] /\
  terminal_test final = true /\
  _has_liberties final (player s) = true /\
  MonteCarloUCTPlayer.rollout_policy 5 0%nat 0 w = Ok (-1)%Z w /\
  MonteCarloUCTPlayer.rollout_policy 5 0%nat 0 w <> Ok 1%Z w.
Proof.
  repeat split; try reflexivity; try discriminate.
  eapply played_move; [reflexivity|reflexivity|].
  eapply played_move; [reflexivity|reflexivity|].
  apply played_end. reflexivity.
Qed.

Lemma rollout_policy_reward_witness :
  let s := mkPiles 2 1 0 in
  let w := mkWorld [] 0 [root_node s] [] in
  exists final g,
    played s [] final g /\
    MonteCarloUCTPlayer.rollout_policy 5 0%nat 0 w =
    Ok (if _has_liberties final (player s) then (-1)%Z else 1%Z)
       (set_rng g w).
Proof.
  apply (rollout_policy_reward (G := game) (fun s => (pile0 s + pile1 s)%nat) 5 0%nat
           (root_node (mkPiles 2 1 0)) 0
           (mkWorld [] 0 [root_node (mkPiles 2 1 0)] []));
    [exact pile_rank | exact pile_moves | reflexivity | simpl; lia].
Defined.

(** C3 as stated fails: with an empty pile the player to move has no legal
    action, the state is terminal, and [monte_carlo_uct] raises the
    [IndexError] of [random.choice] instead of returning an action. *)
Lemma monte_carlo_uct_terminal_root_counterexample :
  let s := mkPiles 0 2 2 in
  let w := mkWorld [] 0 [] [] in
  terminal_test s = true /\
  actions s = [] /\
  MonteCarloUCTPlayer.monte_carlo_uct 5 s w = Raise IndexError /\
  ~ exists a w', MonteCarloUCTPlayer.monte_carlo_uct 5 s w = Ok a w'.
Proof.
  repeat split; try reflexivity. intros (a & w' & H). discriminate H.
Qed.

Lemma monte_carlo_uct_terminal_root_witness :
  let s := mkPiles 2 0 2 in
  let w := mkWorld [7%nat] 0 [] [] in
  exists a,
    a ∈ actions s /\
    actions s !! (randbelow (length (actions s)) (rng w)).1 = Some a /\
    MonteCarloUCTPlayer.monte_carlo_uct 5 s w =
    Ok a (mkWorld (randbelow (length (actions s)) (rng w)).2 (clock w)
            (heap w ++ [mkNode 1 0 s [] [] None]) (queue w)).
Proof.
  apply (monte_carlo_uct_terminal_root (G := game) 5 (mkPiles 2 0 2)
           (mkWorld [7%nat] 0 [] []));
    [reflexivity | discriminate].
Defined.



Lemma expand_attaches_first_untried_witness :
  let w := mkWorld [] 0 small_tree [] in
  let n := first_child in
  exists pre a post,
    actions (state n) = pre ++ a :: post /\
    (forall x, (x ∈ pre) -> (x ∈ child_actions n)) /\
    (a ∉ child_actions n) /\
    let c := length (heap w) in
    MonteCarloUCTPlayer.expand 1%nat w =
    Ok c (set_heap
            (<[1%nat := mkNode (visits n) (value n) (state n)
                         (children n ++ [c]) (child_actions n ++ [a])
                         (parent n)]>
               (heap w ++ [mkNode 1 0 (result (state n) a) [] [] (Some 1%nat)]))
            w) /\
    NoDup (child_actions n ++ [a]).
Proof.
  apply (expand_attaches_first_untried (G := game) 1%nat first_child
           (mkWorld [] 0 small_tree [])).
  - reflexivity.
  - exists 2%nat. split; [right; left|].
    intros H. apply list_elem_of_singleton in H. discriminate H.
  - apply NoDup_singleton.
Defined.


Lemma pile_actions_nodup (s : Piles) : NoDup (actions s).
Proof.
  simpl. unfold pile_actions. destruct (pile_of s (pile_player s)) as [|[|k]].
  - apply NoDup_nil_2.
  - apply NoDup_singleton.
  - apply list.NoDup_cons. split; [|apply NoDup_singleton].
    intros H. apply list_elem_of_singleton in H. discriminate H.
Qed.

Lemma empty_store_ok : tree_ok (G := game) [] /\
  ranked (G := game) (fun s => (pile0 s + pile1 s)%nat) 6 [].
Proof.
  split; [split|]; intros l n; try intros p; discriminate.
Qed.


End OnTakeAway.

(** ** More runs on the take-away game *)

Section MoreOnTakeAway.
Import TakeAway.

Lemma pile_contract : game_contract (G := game) (fun s => (pile0 s + pile1 s)%nat).
Proof.
  split; [exact pile_actions_nodup|]. split; [exact pile_moves|exact pile_rank].
Qed.

Lemma empty_store : store_ok (G := game) [].
Proof.
  split; [exact (proj1 empty_store_ok)|].
  split; intros l n Hn; discriminate Hn.
Qed.

Lemma alpha_beta_window_sound_witness :
  within_window
    (MinimaxAlphaBetaPlayer.plain_min_value 0 (mkPiles 3 2 2) 3)
    (MinimaxAlphaBetaPlayer.min_value 0 (mkPiles 3 2 2) (Fin 0) (Fin 1) 3)
    (Fin 0) (Fin 1) /\
  within_window
    (MinimaxAlphaBetaPlayer.plain_max_value 0 (mkPiles 3 2 2) 3)
    (MinimaxAlphaBetaPlayer.max_value 0 (mkPiles 3 2 2) (Fin 0) (Fin 1) 3)
    (Fin 0) (Fin 1).
Proof.
  apply (alpha_beta_window_sound (G := game) 0 (mkPiles 3 2 2) (Fin 0) (Fin 1) 3).
  reflexivity.
Defined.

Lemma minimax_alpha_beta_optimal_witness :
  exists a,
    MinimaxAlphaBetaPlayer.minimax_alpha_beta 0 (mkPiles 3 2 2) 3 = Some a /\
    a ∈ actions (mkPiles 3 2 2) /\
    forall b, b ∈ actions (mkPiles 3 2 2) ->
      (MinimaxAlphaBetaPlayer.plain_min_value 0 (result (mkPiles 3 2 2) b) (3 - 1)
       <= MinimaxAlphaBetaPlayer.plain_min_value 0 (result (mkPiles 3 2 2) a)
            (3 - 1))%EZ.
Proof.
  apply (minimax_alpha_beta_optimal (G := game) 0 (mkPiles 3 2 2) 3).
  discriminate.
Defined.

Lemma deep_search_stable_witness :
  (forall alpha beta,
     MinimaxAlphaBetaPlayer.min_value 0 (mkPiles 1 1 2) alpha beta 2 =
     MinimaxAlphaBetaPlayer.min_value 0 (mkPiles 1 1 2) alpha beta 5 /\
     MinimaxAlphaBetaPlayer.max_value 0 (mkPiles 1 1 2) alpha beta 2 =
     MinimaxAlphaBetaPlayer.max_value 0 (mkPiles 1 1 2) alpha beta 5) /\
  (terminal_test (mkPiles 1 1 2) = false ->
   MinimaxAlphaBetaPlayer.minimax_alpha_beta 0 (mkPiles 1 1 2) 2 =
   MinimaxAlphaBetaPlayer.minimax_alpha_beta 0 (mkPiles 1 1 2) 5).
Proof.
  apply (deep_search_stable (G := game) 0
           (fun s => (pile0 s + pile1 s)%nat) pile_moves pile_rank
           (mkPiles 1 1 2) 2 5); simpl; lia.
Defined.

Lemma get_action_without_actions_witness :
  let st := mkPiles 0 2 2 in
  let w := mkWorld [] 1 [] [] in
  ((ply_count st < 2)%Z ->
   MinimaxAlphaBetaPlayer.get_action 0 st w = Raise IndexError /\
   MonteCarloUCTPlayer.get_action 5 st w = Raise IndexError) /\
  ((2 <= ply_count st)%Z ->
   MinimaxAlphaBetaPlayer.get_action 0 st w = Raise ValueError /\
   (terminal_test st = true ->
    MonteCarloUCTPlayer.get_action 5 st w = Raise IndexError) /\
   (terminal_test st = false -> (2 <= 5)%nat ->
    MonteCarloUCTPlayer.get_action 5 st w = Raise ValueError)).
Proof.
  apply (get_action_without_actions (G := game) 0 5 (mkPiles 0 2 2)
           (mkWorld [] 1 [] [])).
  reflexivity.
Defined.

Lemma monte_carlo_uct_no_time_witness :
  MonteCarloUCTPlayer.monte_carlo_uct 5 (mkPiles 3 3 2) (mkWorld [] 0 [] [])
  = Raise ValueError.
Proof.
  apply (monte_carlo_uct_no_time (G := game) 5 (mkPiles 3 3 2)
           (mkWorld [] 0 [] [])); [reflexivity | reflexivity | lia].
Defined.

Lemma expand_nothing_untried_witness :
  MonteCarloUCTPlayer.expand 0%nat (mkWorld [] 0 small_tree [])
  = Raise UnboundLocalError.
Proof.
  refine (expand_nothing_untried (G := game) 0%nat _
            (mkWorld [] 0 small_tree []) eq_refl _).
  intros a Ha. exact Ha.
Defined.

Lemma fully_explored_iff_nothing_untried_witness :
  let w := mkWorld [] 0 small_tree [] in
  exists full,
    Node.fully_explored 1%nat w = Ok full w /\
    (full = false <->
     exists a, a ∈ actions (state first_child) /\ a ∉ child_actions first_child).
Proof.
  apply (fully_explored_iff_nothing_untried (G := game) 1%nat first_child
           (mkWorld [] 0 small_tree [])).
  - reflexivity.
  - apply pile_actions_nodup.
  - apply NoDup_singleton.
  - intros a Ha. apply list_elem_of_singleton in Ha as ->. left.
Defined.

Lemma tree_policy_returns_leaf_witness :
  let w := mkWorld [] 0 [root_node (mkPiles 3 3 2)] [] in
  exists leaf h',
    MonteCarloUCTPlayer.tree_policy 5 0%nat w = Ok leaf (set_heap h' w) /\
    (exists d, ancestor h' leaf d = Some 0%nat) /\
    ((h' = heap w /\
      exists ln, heap w !! leaf = Some ln /\ terminal_test (state ln) = true) \/
     (exists p pn a pre post,
        heap w !! p = Some pn /\ terminal_test (state pn) = false /\
        actions (state pn) = pre ++ a :: post /\
        (forall x, (x ∈ pre) -> (x ∈ child_actions pn)) /\
        (a ∉ child_actions pn) /\
        leaf = length (heap w) /\ h' = expanded (heap w) p pn a)).
Proof.
  apply (tree_policy_returns_leaf (G := game)
           (fun s => (pile0 s + pile1 s)%nat) 5
           (mkWorld [] 0 [root_node (mkPiles 3 3 2)] []) 0%nat
           (root_node (mkPiles 3 3 2))).
  - exact pile_contract.
  - exact (tree_ok_root (G := game) [] (mkPiles 3 3 2) (proj1 empty_store_ok)).
  - reflexivity.
  - simpl. lia.
Defined.

Lemma search_visits_root_once_per_round_witness :
  exists a w rn,
    MonteCarloUCTPlayer.monte_carlo_uct 20 (mkPiles 3 3 2) (mkWorld [] 3 [] [])
    = Ok a w /\
    heap w !! 0%nat = Some rn /\
    state rn = mkPiles 3 3 2 /\
    Z.pos (visits rn) = (1 + Z.of_nat 3)%Z /\
    (length (heap w) <= 0 + 1 + 3)%nat /\
    clock w = O.
Proof.
  apply (search_visits_root_once_per_round (G := game)
           (fun s => (pile0 s + pile1 s)%nat) 6%nat 20%nat (mkPiles 3 3 2)
           (mkWorld [] 3 [] []));
    [exact pile_contract | exact empty_store | exact (proj2 empty_store_ok)
    | simpl; lia | reflexivity | simpl; lia | simpl; lia].
Defined.

Lemma search_keeps_values_within_visits_witness :
  exists a w,
    MonteCarloUCTPlayer.monte_carlo_uct 20 (mkPiles 3 3 2) (mkWorld [] 3 [] [])
    = Ok a w /\
    forall l n, heap w !! l = Some n ->
      (Z.abs (value n) <= Z.pos (visits n) - 1)%Z /\
      (-1 <= IZR (value n) / IPR (visits n) <= 1)%R.
Proof.
  apply (search_keeps_values_within_visits (G := game)
           (fun s => (pile0 s + pile1 s)%nat) 6%nat 20%nat (mkPiles 3 3 2)
           (mkWorld [] 3 [] []));
    [exact pile_contract | exact empty_store | exact (proj2 empty_store_ok)
    | simpl; lia | reflexivity | simpl; lia | simpl; lia].
Defined.

Lemma search_creates_children_in_action_order_witness :
  exists a w rn i,
    MonteCarloUCTPlayer.monte_carlo_uct 20 (mkPiles 3 3 2) (mkWorld [] 3 [] [])
    = Ok a w /\
    heap w !! 0%nat = Some rn /\
    child_actions rn !! i = Some a /\
    actions (mkPiles 3 3 2) !! i = Some a /\
    (forall l n, heap w !! l = Some n ->
       child_actions n = take (length (children n)) (actions (state n))) /\
    store_ok (heap w).
Proof.
  apply (search_creates_children_in_action_order (G := game)
           (fun s => (pile0 s + pile1 s)%nat) 6%nat 20%nat (mkPiles 3 3 2)
           (mkWorld [] 3 [] []));
    [exact pile_contract | exact empty_store | exact (proj2 empty_store_ok)
    | simpl; lia | reflexivity | simpl; lia | simpl; lia].
Defined.

Lemma monte_carlo_get_action_puts_one_legal_action_witness :
  exists a w,
    MonteCarloUCTPlayer.get_action 20 (mkPiles 3 3 2) (mkWorld [] 3 [] [])
    = Ok tt w /\
    queue w = [] ++ [a] /\
    a ∈ actions (mkPiles 3 3 2).
Proof.
  apply (monte_carlo_get_action_puts_one_legal_action (G := game)
           (fun s => (pile0 s + pile1 s)%nat) 6%nat 20%nat (mkPiles 3 3 2)
           (mkWorld [] 3 [] []));
    [exact pile_contract | exact empty_store | exact (proj2 empty_store_ok)
    | simpl; lia | reflexivity | simpl; lia | simpl; lia | simpl; lia].
Defined.

End MoreOnTakeAway.

Section ExplorationOnTakeAway.
Import TakeAway.

Lemma explore_domain_witness :
  let w := mkWorld [] 0 small_tree [] in
  (parent first_child = None ->
   MonteCarloUCTPlayer.explore 1%nat w = Raise AttributeError) /\
  (forall p pn, parent first_child = Some p -> heap w !! p = Some pn ->
     (1 <= IPR (visits pn))%R /\
     (0 <= 2 * ln (IPR (visits pn)) / IPR (visits first_child))%R /\
     MonteCarloUCTPlayer.explore 1%nat w =
       Ok (sqrt (2 * ln (IPR (visits pn)) / IPR (visits first_child)))%R w /\
     (0 <= sqrt (2 * ln (IPR (visits pn)) / IPR (visits first_child)))%R).
Proof.
  apply (explore_domain (G := game) (mkWorld [] 0 small_tree []) 1%nat
           first_child).
  reflexivity.
Defined.

End ExplorationOnTakeAway.
